(** * Damerau-Levenshtein engines of fuzzystrmatch (dameraulevenshtein.c)

    A shallow embedding of the three functions of [dameraulevenshtein.c]:
    - [dameraulevenshtein_internal]            (two rows, no bound),
    - [dameraulevenshtein_less_equal_internal] (two rows, bound [max_d]),
    - [dameraulevenshtein_internal_noncompatible] (three rows, with swaps),
    followed by the properties proved about them.

    Conventions of the embedding.
    - A C [int] is a [Z].  Signed overflow is undefined behaviour in C, so
      the embedding describes the executions in which no [int] overflows.
      An integer division by zero is kept: it is the outcome
      [DivisionByZero].
    - A [text] is the list of its payload bytes ([VARDATA_ANY]); its byte
      length ([VARSIZE_ANY_EXHDR]) is the length of the list.
    - A [const char *] into a text is the list of the bytes from the pointed
      position on; [p + k] is [ptr_add p k], [p[k]] is [ptr_at p k].
    - An [int *] array is a [list Z], read with [rd] and written with [wr]
      (out of the array, which is undefined behaviour in C, [rd] gives 0
      and [wr] does nothing; likewise [ptr_at] gives the zero byte past the
      end of a text).  Memory returned by [palloc]/[malloc] has unspecified
      contents: they are given by the section variable [uninit], and every
      theorem holds for every [uninit].
    - [ereport(ERROR, ...)] does not return: it is the outcome
      [InputTooLong]. *)

From Stdlib Require Import ZArith List Lia Bool.
From Stdlib Require Import Strings.Byte Strings.String.
Import ListNotations.
Open Scope Z_scope.

(** ** Bytes, pointers and arrays *)

Definition text := list byte.

Definition VARSIZE_ANY_EXHDR (s : text) : Z := Z.of_nat (List.length s).

Definition ptr_add (p : list byte) (k : Z) : list byte := skipn (Z.to_nat k) p.

Definition ptr_at (p : list byte) (k : Z) : byte := nth (Z.to_nat k) p x00.

Definition rd (a : list Z) (i : Z) : Z := nth (Z.to_nat i) a 0.

Fixpoint upd_nat (a : list Z) (k : nat) (v : Z) : list Z :=
  match a, k with
  | [], _ => []
  | _ :: a', O => v :: a'
  | w :: a', S k' => w :: upd_nat a' k' v
  end.

Definition wr (a : list Z) (i : Z) (v : Z) : list Z := upd_nat a (Z.to_nat i) v.

(** The macro [Min(x, y)] of PostgreSQL's c.h. *)
Definition Min (x y : Z) : Z := if x <? y then x else y.

Definition MAX_DAMERAU_LEVENSHTEIN_STRLEN : Z := 255.

(** What a call does: it returns an [int], or [ereport]s the only error of
    the file, or traps on an integer division by zero. *)
Inductive outcome : Type :=
| Ret (d : Z)
| InputTooLong (limit : Z)
| DivisionByZero.

(** C's [a / b] on [int]: truncation towards zero, a trap when [b] is 0. *)
Definition int_div (a b : Z) : option Z :=
  if b =? 0 then None else Some (Z.quot a b).

(** Modelled from the spec: [rest_of_char_same] is declared in the
    fuzzystrmatch module, outside this file; the spec (4.1) has it "compare
    full byte spans": the [len] bytes at [s1] and at [s2], from the last one
    down. *)
Fixpoint rest_of_char_same_loop (len : nat) (s1 s2 : list byte) : bool :=
  match len with
  | O => true
  | S k =>
      if Byte.eqb (nth k s1 x00) (nth k s2 x00)
      then rest_of_char_same_loop k s1 s2
      else false
  end.

Definition rest_of_char_same (s1 s2 : list byte) (len : Z) : bool :=
  rest_of_char_same_loop (Z.to_nat len) s1 s2.

Section Engines.

(** [pg_mblen p]: byte length of the character that starts at [p], in the
    encoding of the database (PostgreSQL's mbutils.c; not part of this
    repository). *)
Variable pg_mblen : list byte -> Z.

(** Contents of freshly allocated memory, by word offset in the block. *)
Variable uninit : nat -> Z.

Definition palloc_ints (from len : Z) : list Z :=
  map uninit (seq (Z.to_nat from) (Z.to_nat len)).

(** Modelled from the spec: [pg_mbstrlen_with_len] is PostgreSQL's, not
    part of this repository; it gives the "character count" of a text, and
    the source describes it as returning "the length (counted in wchars) of
    a multibyte string (not necessarily NULL terminated)": it steps over one
    character after the other while bytes remain.  A character has at least
    one byte, so [limit] iterations are enough. *)
Fixpoint mbstrlen_loop (fuel : nat) (mbstr : list byte) (limit len : Z) : Z :=
  match fuel with
  | O => len
  | S f =>
      if 0 <? limit
      then let l := pg_mblen mbstr in
           mbstrlen_loop f (ptr_add mbstr l) (limit - l) (len + 1)
      else len
  end.

Definition pg_mbstrlen_with_len (mbstr : list byte) (limit : Z) : Z :=
  mbstrlen_loop (Z.to_nat limit) mbstr limit 0.

(** The loop that fills [s_char_len]: [m] character lengths, then a 0. *)
Fixpoint fill_char_len (cnt : nat) (cp : list byte) : list Z :=
  match cnt with
  | O => [0]
  | S k => let l := pg_mblen cp in l :: fill_char_len k (ptr_add cp l)
  end.

(** [s_char_len] is [NULL] ([None]) when both strings are single-byte. *)
Definition make_s_char_len (s_data : list byte) (m s_bytes n t_bytes : Z)
  : option (list Z) :=
  if negb (m =? s_bytes) || negb (n =? t_bytes)
  then Some (fill_char_len (Z.to_nat m) s_data)
  else None.

(** The test of the multi-byte inner loop: last bytes, then lengths, then
    the whole characters. *)
Definition mb_char_same (x : list byte) (x_char_len : Z)
                        (y : list byte) (y_char_len : Z) : bool :=
  Byte.eqb (ptr_at x (x_char_len - 1)) (ptr_at y (y_char_len - 1))
  && (x_char_len =? y_char_len)
  && ((x_char_len =? 1) || rest_of_char_same x y x_char_len).

Section Rows.

Variables ins_c del_c sub_c : Z.

(** [for (i = from; i < to; i++) prev[i] = i * del_c;] *)
Fixpoint init_prev (cnt : nat) (i : Z) (prev : list Z) : list Z :=
  match cnt with
  | O => prev
  | S k => init_prev k (i + 1) (wr prev i (i * del_c))
  end.

(** The inner loop over the columns when [s_char_len != NULL]; [cnt] is the
    number of iterations left, [STOP_COLUMN - i]. *)
Fixpoint inner_mb (s_char_len : list Z) (y : list byte) (y_char_len : Z)
    (prev : list Z) (cnt : nat) (i : Z) (x : list byte) (curr : list Z)
  : list Z :=
  match cnt with
  | O => curr
  | S k =>
      let x_char_len := rd s_char_len (i - 1) in
      let ins := rd prev i + ins_c in
      let del := rd curr (i - 1) + del_c in
      let sub :=
        if mb_char_same x x_char_len y y_char_len
        then rd prev (i - 1)
        else rd prev (i - 1) + sub_c in
      let curr := wr curr i (Min ins del) in
      let curr := wr curr i (Min (rd curr i) sub) in
      inner_mb s_char_len y y_char_len prev k (i + 1) (ptr_add x x_char_len) curr
  end.

(** The inner loop of the single-byte fast path. *)
Fixpoint inner_sb (y : list byte) (prev : list Z)
    (cnt : nat) (i : Z) (x : list byte) (curr : list Z) : list Z :=
  match cnt with
  | O => curr
  | S k =>
      let ins := rd prev i + ins_c in
      let del := rd curr (i - 1) + del_c in
      let sub := rd prev (i - 1)
                 + (if Byte.eqb (ptr_at x 0) (ptr_at y 0) then 0 else sub_c) in
      let curr := wr curr i (Min ins del) in
      let curr := wr curr i (Min (rd curr i) sub) in
      inner_sb y prev k (i + 1) (ptr_add x 1) curr
  end.

(** Both inner loops, [for (; i < stop; i++)], chosen by [s_char_len]. *)
Definition inner (s_char_len : option (list Z)) (y : list byte)
    (y_char_len : Z) (prev : list Z) (i stop : Z) (x : list byte)
    (curr : list Z) : list Z :=
  match s_char_len with
  | Some scl => inner_mb scl y y_char_len prev (Z.to_nat (stop - i)) i x curr
  | None => inner_sb y prev (Z.to_nat (stop - i)) i x curr
  end.

(** [n != t_bytes + 1 ? pg_mblen(y) : 1], with [n] already incremented. *)
Definition y_len (n t_bytes : Z) (y : list byte) : Z :=
  if negb (n =? t_bytes + 1) then pg_mblen y else 1.

(** *** Rows of [dameraulevenshtein_internal]
    ([START_COLUMN] is 0 and [STOP_COLUMN] is [m]).  The result is the pair
    of row pointers on loop exit. *)
Fixpoint rows (s_char_len : option (list Z)) (s_data : list byte)
    (m n t_bytes : Z) (cnt : nat) (j : Z) (y : list byte)
    (prev curr : list Z) : list Z * list Z :=
  match cnt with
  | O => (prev, curr)
  | S k =>
      let x := s_data in
      let y_char_len := y_len n t_bytes y in
      let curr := wr curr 0 (j * ins_c) in
      let curr := inner s_char_len y y_char_len prev 1 m x curr in
      (* swap, then next character of t *)
      rows s_char_len s_data m n t_bytes k (j + 1) (ptr_add y y_char_len)
           curr prev
  end.

End Rows.

(** ** [dameraulevenshtein_internal] *)
Definition dameraulevenshtein_internal (s t : text)
    (ins_c del_c sub_c trans_c : Z) : outcome :=
  let s_data := s in
  let t_data := t in
  let s_bytes := VARSIZE_ANY_EXHDR s in
  let t_bytes := VARSIZE_ANY_EXHDR t in
  let m := pg_mbstrlen_with_len s_data s_bytes in
  let n := pg_mbstrlen_with_len t_data t_bytes in
  if m =? 0 then Ret (n * ins_c)
  else if n =? 0 then Ret (m * del_c)
  else if (MAX_DAMERAU_LEVENSHTEIN_STRLEN <? m)
          || (MAX_DAMERAU_LEVENSHTEIN_STRLEN <? n)
  then InputTooLong MAX_DAMERAU_LEVENSHTEIN_STRLEN
  else
    let s_char_len := make_s_char_len s_data m s_bytes n t_bytes in
    let m := m + 1 in
    let n := n + 1 in
    let prev := palloc_ints 0 m in
    let curr := palloc_ints m m in
    let prev := init_prev del_c (Z.to_nat (m - 0)) 0 prev in
    let '(prev, _) :=
      rows ins_c del_c sub_c s_char_len s_data m n t_bytes
           (Z.to_nat (n - 1)) 1 t_data prev curr in
    Ret (rd prev (m - 1)).

(** ** [dameraulevenshtein_less_equal_internal] *)

(** Result of the block [if (max_d >= 0) { ... }] at function entry: an
    immediate return, or the values of [sub_c], [max_d] and [stop_column] the
    function goes on with, or a trap in the division. *)
Inductive setup : Type :=
| SetupReturn (d : Z)
| SetupGo (sub_c max_d stop_column : Z)
| SetupDivByZero.

(** The locals of that block. *)
Definition min_theo_d (m n ins_c del_c : Z) : Z :=
  let net_inserts := n - m in
  if net_inserts <? 0 then - net_inserts * del_c else net_inserts * ins_c.

(** [if (ins_c + del_c < sub_c) sub_c = ins_c + del_c;] *)
Definition capped_sub_c (ins_c del_c sub_c : Z) : Z :=
  if ins_c + del_c <? sub_c then ins_c + del_c else sub_c.

Definition max_theo_d (m n ins_c del_c sub_c : Z) : Z :=
  min_theo_d m n ins_c del_c + sub_c * Min m n.

Definition bound_setup (m n ins_c del_c sub_c max_d stop_column : Z) : setup :=
  if 0 <=? max_d then
    let net_inserts := n - m in
    let min_theo_d := min_theo_d m n ins_c del_c in
    if max_d <? min_theo_d then SetupReturn (max_d + 1)
    else
      let sub_c := capped_sub_c ins_c del_c sub_c in
      let max_theo_d := max_theo_d m n ins_c del_c sub_c in
      if max_theo_d <=? max_d then SetupGo sub_c (-1) stop_column
      else if 0 <? ins_c + del_c then
        let slack_d := max_d - min_theo_d in
        let best_column := if net_inserts <? 0 then - net_inserts else 0 in
        match int_div slack_d (ins_c + del_c) with
        | None => SetupDivByZero
        | Some q =>
            let stop_column := best_column + q + 1 in
            let stop_column := if m <? stop_column then m + 1 else stop_column in
            SetupGo sub_c max_d stop_column
        end
      else SetupGo sub_c max_d stop_column
  else SetupGo sub_c max_d stop_column.

(** The variables that live across the iterations of the row loop. *)
Record loop_vars : Type := LoopVars {
  v_prev : list Z;
  v_curr : list Z;
  v_start_column : Z;
  v_stop_column : Z;
  v_s_data : list byte;
  v_y : list byte;
  v_j : Z
}.

Section BoundedRows.

Variables ins_c del_c sub_c max_d : Z.
Variable s_char_len : option (list Z).
Variables m n t_bytes : Z.

(** [net_inserts > 0 ? net_inserts * ins_c : -net_inserts * del_c] *)
Definition residual (net_inserts : Z) : Z :=
  if 0 <? net_inserts then net_inserts * ins_c else - net_inserts * del_c.

(** [while (stop_column > 0) { ... stop_column--; }] *)
Fixpoint slide_stop (fuel : nat) (prev : list Z) (zp stop_column : Z) : Z :=
  match fuel with
  | O => stop_column
  | S f =>
      if 0 <? stop_column then
        let ii := stop_column - 1 in
        let net_inserts := ii - zp in
        if rd prev ii + residual net_inserts <=? max_d then stop_column
        else slide_stop f prev zp (stop_column - 1)
      else stop_column
  end.

(** [while (start_column < stop_column) { ... start_column++; }]; it
    writes both rows and moves [s_data]. *)
Fixpoint slide_start (fuel : nat) (zp stop_column : Z)
    (prev curr : list Z) (s_data : list byte) (start_column : Z)
  : list Z * list Z * list byte * Z :=
  match fuel with
  | O => (prev, curr, s_data, start_column)
  | S f =>
      if start_column <? stop_column then
        let net_inserts := start_column - zp in
        if rd prev start_column + residual net_inserts <=? max_d
        then (prev, curr, s_data, start_column)
        else
          let prev := wr prev start_column (max_d + 1) in
          let curr := wr curr start_column (max_d + 1) in
          let s_data :=
            if negb (start_column =? 0)
            then ptr_add s_data
                   match s_char_len with
                   | Some scl => rd scl (start_column - 1)
                   | None => 1
                   end
            else s_data in
          slide_start f zp stop_column prev curr s_data (start_column + 1)
      else (prev, curr, s_data, start_column)
  end.

(** The body of the row loop up to the test of the crossing: the new row,
    the swap, and (when [max_d >= 0]) the two slides. *)
Definition row_body (v : loop_vars) : loop_vars :=
  let '(LoopVars prev curr start_column stop_column s_data y j) := v in
  let x := s_data in
  let y_char_len := y_len n t_bytes y in
  let '(prev, stop_column) :=
    if stop_column <? m
    then (wr prev stop_column (max_d + 1), stop_column + 1)
    else (prev, stop_column) in
  let '(curr, i) :=
    if start_column =? 0
    then (wr curr 0 (j * ins_c), 1)
    else (curr, start_column) in
  let curr := inner ins_c del_c sub_c s_char_len y y_char_len prev
                    i stop_column x curr in
  (* swap *)
  let '(prev, curr) := (curr, prev) in
  let y := ptr_add y y_char_len in
  if 0 <=? max_d then
    let zp := j - (n - m) in
    let stop_column := slide_stop (Z.to_nat stop_column) prev zp stop_column in
    let '(prev, curr, s_data, start_column) :=
      slide_start (Z.to_nat (stop_column - start_column)) zp stop_column
                  prev curr s_data start_column in
    LoopVars prev curr start_column stop_column s_data y j
  else LoopVars prev curr start_column stop_column s_data y j.

(** One iteration of the row loop: [inl d] when it returns [d] from inside
    the loop ([if (start_column >= stop_column) return max_d + 1;], under
    [max_d >= 0]), [inr v] when it reaches the end of the body. *)
Definition row_le (v : loop_vars) : Z + loop_vars :=
  let v' := row_body v in
  if (0 <=? max_d) && (v_stop_column v' <=? v_start_column v')
  then inl (max_d + 1)
  else inr v'.

(** [for (y = t_data, j = 1; j < n; j++) { ... }  return prev[m - 1];] *)
Fixpoint rows_le (cnt : nat) (v : loop_vars) : Z :=
  match cnt with
  | O => rd (v_prev v) (m - 1)
  | S k =>
      match row_le v with
      | inl d => d
      | inr (LoopVars prev curr start_column stop_column s_data y j) =>
          rows_le k (LoopVars prev curr start_column stop_column s_data y (j + 1))
      end
  end.

End BoundedRows.

(** What the function has set up when it reaches the row loop: the values
    of [sub_c] and [max_d] after the block above, the cache of character
    lengths, [m] and [n] after [++m; ++n;], and the loop variables. *)
Record loop_entry : Type := LoopEntry {
  e_sub_c : Z;
  e_max_d : Z;
  e_s_char_len : option (list Z);
  e_m : Z;
  e_n : Z;
  e_t_bytes : Z;
  e_vars : loop_vars
}.

(** The function up to the row loop: an outcome when it ends there, the
    loop entry otherwise. *)
Definition less_equal_prologue (s t : text)
    (ins_c del_c sub_c trans_c max_d : Z) : outcome + loop_entry :=
  let s_data := s in
  let t_data := t in
  let s_bytes := VARSIZE_ANY_EXHDR s in
  let t_bytes := VARSIZE_ANY_EXHDR t in
  let m := pg_mbstrlen_with_len s_data s_bytes in
  let n := pg_mbstrlen_with_len t_data t_bytes in
  if m =? 0 then inl (Ret (n * ins_c))
  else if n =? 0 then inl (Ret (m * del_c))
  else if (MAX_DAMERAU_LEVENSHTEIN_STRLEN <? m)
          || (MAX_DAMERAU_LEVENSHTEIN_STRLEN <? n)
  then inl (InputTooLong MAX_DAMERAU_LEVENSHTEIN_STRLEN)
  else
    let start_column := 0 in
    let stop_column := m + 1 in
    match bound_setup m n ins_c del_c sub_c max_d stop_column with
    | SetupReturn d => inl (Ret d)
    | SetupDivByZero => inl DivisionByZero
    | SetupGo sub_c max_d stop_column =>
        let s_char_len := make_s_char_len s_data m s_bytes n t_bytes in
        let m := m + 1 in
        let n := n + 1 in
        let prev := palloc_ints 0 m in
        let curr := palloc_ints m m in
        let prev :=
          init_prev del_c (Z.to_nat (stop_column - start_column))
                    start_column prev in
        inr (LoopEntry sub_c max_d s_char_len m n t_bytes
               (LoopVars prev curr start_column stop_column s_data t_data 1))
    end.

Definition dameraulevenshtein_less_equal_internal (s t : text)
    (ins_c del_c sub_c trans_c max_d : Z) : outcome :=
  match less_equal_prologue s t ins_c del_c sub_c trans_c max_d with
  | inl o => o
  | inr e =>
      Ret (rows_le ins_c del_c (e_sub_c e) (e_max_d e) (e_s_char_len e)
                   (e_m e) (e_n e) (e_t_bytes e)
                   (Z.to_nat (e_n e - 1)) (e_vars e))
  end.

(** ** [dameraulevenshtein_internal_noncompatible] *)

Section SwapRows.

Variables ins_c del_c sub_c trans_c : Z.
Variables string1 string2 : list byte.

(** [for (j = 0; j <= len2; j++) row1[j] = j * ins_c;] *)
Fixpoint init_row1 (cnt : nat) (j : Z) (row1 : list Z) : list Z :=
  match cnt with
  | O => row1
  | S k => init_row1 k (j + 1) (wr row1 j (j * ins_c))
  end.

(** The body of the inner loop: the four assignments to [row2[j + 1]]. *)
Definition swap_cell (i j : Z) (row0 row1 row2 : list Z) : list Z :=
  (* substitution *)
  let row2 :=
    wr row2 (j + 1)
       (rd row1 j
        + sub_c * (if Byte.eqb (ptr_at string1 i) (ptr_at string2 j)
                   then 0 else 1)) in
  (* swap *)
  let row2 :=
    if (0 <? i) && (0 <? j)
       && Byte.eqb (ptr_at string1 (i - 1)) (ptr_at string2 j)
       && Byte.eqb (ptr_at string1 i) (ptr_at string2 (j - 1))
       && (rd row0 (j - 1) + trans_c <? rd row2 (j + 1))
    then wr row2 (j + 1) (rd row0 (j - 1) + trans_c)
    else row2 in
  (* deletion *)
  let row2 :=
    if rd row1 (j + 1) + del_c <? rd row2 (j + 1)
    then wr row2 (j + 1) (rd row1 (j + 1) + del_c)
    else row2 in
  (* insertion *)
  if rd row2 j + ins_c <? rd row2 (j + 1)
  then wr row2 (j + 1) (rd row2 j + ins_c)
  else row2.

(** [for (j = 0; j < len2; j++) { ... }] *)
Fixpoint swap_inner (cnt : nat) (i j : Z) (row0 row1 row2 : list Z) : list Z :=
  match cnt with
  | O => row2
  | S k => swap_inner k i (j + 1) row0 row1 (swap_cell i j row0 row1 row2)
  end.

(** [for (i = 0; i < len1; i++) { ... }], with the rotation of the three
    rows; the result is the three row pointers on exit. *)
Fixpoint swap_rows (len2 : Z) (cnt : nat) (i : Z) (row0 row1 row2 : list Z)
  : list Z * list Z * list Z :=
  match cnt with
  | O => (row0, row1, row2)
  | S k =>
      let row2 := wr row2 0 ((i + 1) * del_c) in
      let row2 := swap_inner (Z.to_nat (len2 - 0)) i 0 row0 row1 row2 in
      swap_rows len2 k (i + 1) row1 row2 row0
  end.

End SwapRows.

Definition dameraulevenshtein_internal_noncompatible (s t : text)
    (ins_c del_c sub_c trans_c : Z) : Z :=
  let s_data := s in
  let t_data := t in
  let string1 := s_data in
  let string2 := t_data in
  let s_bytes := VARSIZE_ANY_EXHDR s in
  let t_bytes := VARSIZE_ANY_EXHDR t in
  let m := pg_mbstrlen_with_len s_data s_bytes in
  let n := pg_mbstrlen_with_len t_data t_bytes in
  let len1 := m in
  let len2 := n in
  let row0 := palloc_ints 0 (len2 + 1) in
  let row1 := palloc_ints (len2 + 1) (len2 + 1) in
  let row2 := palloc_ints (2 * (len2 + 1)) (len2 + 1) in
  let row1 := init_row1 ins_c (Z.to_nat (len2 + 1 - 0)) 0 row1 in
  let '(_, row1, _) :=
    swap_rows ins_c del_c sub_c trans_c string1 string2 len2
              (Z.to_nat (len1 - 0)) 0 row0 row1 row2 in
  rd row1 len2.

End Engines.

(** ** An encoding: UTF-8

    [pg_utf_mblen] of PostgreSQL's wchar.c, the [pg_mblen] of a UTF-8
    database: the length of a character is read off its first byte. *)
Definition pg_utf_mblen (p : list byte) : Z :=
  let c := Z.of_N (Byte.to_N (nth 0 p x00)) in
  if Z.land c 128 =? 0 then 1
  else if Z.land c 224 =? 192 then 2
  else if Z.land c 240 =? 224 then 3
  else if Z.land c 248 =? 240 then 4
  else 1.

(** A single-byte encoding (LATIN1, SQL_ASCII, ...). *)
Definition pg_latin1_mblen (p : list byte) : Z := 1.

Definition bytes (s : string) : text := list_byte_of_string s.

(** Memory full of junk values, for the examples. *)
Definition junk : nat -> Z := fun k => 1000000 + Z.of_nat k.


(** * Specification-level definitions *)

(** ** The notional matrix

    The header comment of the two-row engine describes "an (m+1)x(n+1)
    matrix where cell (i, j) represents the minimum number of operations
    required to transform the first i characters of s into the first j
    characters of t".  [notional j i] is that cell, by the recurrence of the
    inner loop; [same i j] tells whether character [i] of [s] and character
    [j] of [t] (counted from 0) are the same. *)

Section Notional.

Variables ins_c del_c sub_c : Z.
Variable same : nat -> nat -> bool.

Definition cell (up left diag : Z) (e : bool) : Z :=
  Z.min (Z.min (up + ins_c) (left + del_c))
        (diag + (if e then 0 else sub_c)).

Fixpoint notional (j : nat) : nat -> Z :=
  match j with
  | O => fun i => Z.of_nat i * del_c
  | S j' =>
      fix row (i : nat) : Z :=
        match i with
        | O => Z.of_nat (S j') * ins_c
        | S i' => cell (notional j' (S i')) (row i') (notional j' i') (same i' j')
        end
  end.

End Notional.

(** ** Where the pointers of the engines are

    [x_ptr k] and [y_ptr k] are the values of [x] and [y] when they point to
    character [k] of [s] and of [t]; [same_at i j] is the test the inner loop
    makes for these two characters. *)

Section Pointers.

Variable pg_mblen : list byte -> Z.
Variable s_char_len : option (list Z).
Variables s_data t_data : list byte.
Variables n t_bytes : Z.

Definition x_len (k : nat) : Z :=
  match s_char_len with
  | Some scl => rd scl (Z.of_nat k)
  | None => 1
  end.

Fixpoint x_ptr (k : nat) : list byte :=
  match k with
  | O => s_data
  | S k' => ptr_add (x_ptr k') (x_len k')
  end.

Fixpoint y_ptr (k : nat) : list byte :=
  match k with
  | O => t_data
  | S k' => ptr_add (y_ptr k') (y_len pg_mblen n t_bytes (y_ptr k'))
  end.

Definition same_at (i j : nat) : bool :=
  match s_char_len with
  | Some scl =>
      mb_char_same (x_ptr i) (x_len i)
                   (y_ptr j) (y_len pg_mblen n t_bytes (y_ptr j))
  | None => Byte.eqb (ptr_at (x_ptr i) 0) (ptr_at (y_ptr j) 0)
  end.

End Pointers.

(** The corner of the notional matrix for two texts, with the characters
    compared the way the two-row engines compare them. *)
Definition char_count (pg_mblen : list byte -> Z) (s : text) : Z :=
  pg_mbstrlen_with_len pg_mblen s (VARSIZE_ANY_EXHDR s).

Definition engine_same (pg_mblen : list byte -> Z) (s t : text)
  : nat -> nat -> bool :=
  let m := char_count pg_mblen s in
  let n := char_count pg_mblen t in
  same_at pg_mblen
    (make_s_char_len pg_mblen s m (VARSIZE_ANY_EXHDR s) n (VARSIZE_ANY_EXHDR t))
    s t (n + 1) (VARSIZE_ANY_EXHDR t).

Definition matrix_corner (pg_mblen : list byte -> Z) (s t : text)
    (ins_c del_c sub_c : Z) : Z :=
  notional ins_c del_c sub_c (engine_same pg_mblen s t)
           (Z.to_nat (char_count pg_mblen t))
           (Z.to_nat (char_count pg_mblen s)).

(** ** Cells that can still matter under a bound

    For the bounded engine: [zero_point j] is the "zero point" of row [j],
    [residue i j] the "minimum residual distance" of cell [(i, j)], and a
    cell is [within] the bound when its value plus its residue is at most
    [max_d].  [m0] and [n0] are the character counts of [s] and [t]. *)

Section Bounded.

Variables ins_c del_c sub_c max_d : Z.
Variable same : nat -> nat -> bool.
Variables m0 n0 : nat.

Definition zero_point (j : nat) : Z :=
  Z.of_nat j - (Z.of_nat n0 - Z.of_nat m0).

Definition residue (i j : nat) : Z :=
  residual ins_c del_c (Z.of_nat i - zero_point j).

Definition within (i j : nat) : Prop :=
  notional ins_c del_c sub_c same j i + residue i j <= max_d.

(** What is known of a value [v] read for cell [(i, j)]: it is the cell of
    the notional matrix when that cell is within the bound, and it is
    itself out of the bound otherwise. *)
Definition faithful (v : Z) (i j : nat) : Prop :=
  (within i j -> v = notional ins_c del_c sub_c same j i)
  /\ (~ within i j -> max_d < v + residue i j).

End Bounded.

(** The test of the two slides on column [i], for the zero point [zp]. *)
Definition slide_test (ins_c del_c max_d : Z) (prev : list Z) (zp : Z)
    (i : nat) : Prop :=
  rd prev (Z.of_nat i) + residual ins_c del_c (Z.of_nat i - zp) <= max_d.

(** ** The invariant of the row loop of the bounded engine

    [window_inv j v] is what holds of the loop variables [v] when [j] rows
    have been computed, under a bound [max_d >= 0]: the columns
    [[start_column, stop_column)] of [prev] are faithful to row [j] of the
    notional matrix, the columns on the left hold [max_d + 1] in both rows
    and are out of the bound, like the columns on the right. *)

Section WindowInvariant.

Variable pg_mblen : list byte -> Z.
Variables ins_c del_c sub_c max_d : Z.
Variable s_char_len : option (list Z).
Variables s_data0 t_data : list byte.
Variable t_bytes : Z.
Variables m0 n0 : nat.

Definition window_inv (j : nat) (v : loop_vars) : Prop :=
  let n := Z.of_nat (S n0) in
  let same := same_at pg_mblen s_char_len s_data0 t_data n t_bytes in
  let ok := within ins_c del_c sub_c max_d same m0 n0 in
  let fa := faithful ins_c del_c sub_c max_d same m0 n0 in
  exists a b : nat,
    v_start_column v = Z.of_nat a /\ v_stop_column v = Z.of_nat b
    /\ (a < b <= S m0)%nat
    /\ List.length (v_prev v) = S m0 /\ List.length (v_curr v) = S m0
    /\ (forall i, (a <= i < b)%nat -> fa (rd (v_prev v) (Z.of_nat i)) i j)
    /\ (forall i, (i < a)%nat ->
          rd (v_prev v) (Z.of_nat i) = max_d + 1
          /\ rd (v_curr v) (Z.of_nat i) = max_d + 1
          /\ ~ ok i j)
    /\ (forall i, (b <= i <= m0)%nat -> ~ ok i j)
    /\ ((1 <= j)%nat -> ok (b - 1)%nat j)
    /\ v_s_data v = x_ptr s_char_len s_data0 (a - 1)
    /\ v_y v = y_ptr pg_mblen t_data n t_bytes j
    /\ v_j v = Z.of_nat (S j).

(** The loop variables at the head of the next iteration ([j++]). *)
Definition next_row (v : loop_vars) : loop_vars :=
  LoopVars (v_prev v) (v_curr v) (v_start_column v) (v_stop_column v)
           (v_s_data v) (v_y v) (v_j v + 1).

End WindowInvariant.

(** ** The row loop, iteration by iteration

    [loop_head e k] is the value of the loop variables at the head of
    iteration [k + 1] of the row loop entered with [e], when the function
    has not returned from inside the loop before; [window_ordered m v] is
    the ordering [0 <= start_column <= stop_column <= m] of the window. *)

Section LoopHeads.

Variable pg_mblen : list byte -> Z.
Variables ins_c del_c : Z.

Fixpoint loop_head (e : loop_entry) (k : nat) : option loop_vars :=
  match k with
  | O => Some (e_vars e)
  | S k' =>
      match loop_head e k' with
      | Some v =>
          match row_le pg_mblen ins_c del_c (e_sub_c e) (e_max_d e)
                       (e_s_char_len e) (e_m e) (e_n e) (e_t_bytes e) v with
          | inl _ => None
          | inr v' => Some (next_row v')
          end
      | None => None
      end
  end.

End LoopHeads.

Definition window_ordered (m : Z) (v : loop_vars) : Prop :=
  0 <= v_start_column v <= v_stop_column v /\ v_stop_column v <= m.

(** The ordering, with the lengths of the two rows. *)
Definition window_shape (m : Z) (cols : nat) (v : loop_vars) : Prop :=
  window_ordered m v
  /\ List.length (v_prev v) = cols /\ List.length (v_curr v) = cols.

(** ** Rows filled by the recurrence *)

Section RowFilled.

Variable pg_mblen : list byte -> Z.
Variables ins_c del_c sub_c : Z.
Variable s_char_len : option (list Z).
Variables s_data t_data : list byte.
Variables n t_bytes : Z.

(** What a row [curr'] computed from [prev] looks like on the columns
    [[lo, hi)], all of them at least 1. *)
Definition row_filled (j : nat) (prev curr' : list Z) (lo hi : nat) : Prop :=
  forall k : nat, (lo <= k < hi)%nat ->
    rd curr' (Z.of_nat k) =
    cell ins_c del_c sub_c
         (rd prev (Z.of_nat k)) (rd curr' (Z.of_nat k - 1))
         (rd prev (Z.of_nat k - 1))
         (same_at pg_mblen s_char_len s_data t_data n t_bytes (k - 1)%nat j).

End RowFilled.

(** ** The cell of the three-row engine, in the words of its description

    The minimum of substitution, transposition (only when [i > 0], [j > 0]
    and the two adjacent characters are swapped matches), deletion and
    insertion. *)

Section SwapCell.

Variables ins_c del_c sub_c trans_c : Z.
Variables string1 string2 : list byte.

Definition swapped_match (i j : Z) : bool :=
  (0 <? i) && (0 <? j)
  && Byte.eqb (ptr_at string1 (i - 1)) (ptr_at string2 j)
  && Byte.eqb (ptr_at string1 i) (ptr_at string2 (j - 1)).

Definition swap_cell_value (i j : Z) (row0 row1 row2 : list Z) : Z :=
  let substitution :=
    if Byte.eqb (ptr_at string1 i) (ptr_at string2 j)
    then rd row1 j else rd row1 j + sub_c in
  let deletion := rd row1 (j + 1) + del_c in
  let insertion := rd row2 j + ins_c in
  let transposition := rd row0 (j - 1) + trans_c in
  if swapped_match i j
  then Z.min (Z.min (Z.min substitution transposition) deletion) insertion
  else Z.min (Z.min substitution deletion) insertion.

End SwapCell.

(** ** Characters

    A text is a sequence of characters, each one the span of bytes that
    [pg_mblen] gives it.  [char_ptr s i] points to character [i] of [s],
    [char_at s i] is that character, [chars s] the sequence of them; a text
    is [well_encoded] when each of its characters has at least one byte and
    is complete, which PostgreSQL guarantees of every text value. *)

Definition char := list byte.

Definition char_eqb (a b : char) : bool :=
  if list_eq_dec Byte.byte_eq_dec a b then true else false.

Section Characters.

Variable pg_mblen : list byte -> Z.

Fixpoint char_ptr (s : text) (i : nat) : list byte :=
  match i with
  | O => s
  | S i' => ptr_add (char_ptr s i') (pg_mblen (char_ptr s i'))
  end.

Definition char_at (s : text) (i : nat) : char :=
  firstn (Z.to_nat (pg_mblen (char_ptr s i))) (char_ptr s i).

Definition chars (s : text) : list char :=
  map (char_at s) (seq 0 (Z.to_nat (char_count pg_mblen s))).

Fixpoint well_encoded_loop (fuel : nat) (p : list byte) : bool :=
  match p with
  | [] => true
  | _ :: _ =>
      match fuel with
      | O => false
      | S f =>
          (1 <=? pg_mblen p)
          && (pg_mblen p <=? Z.of_nat (List.length p))
          && well_encoded_loop f (ptr_add p (pg_mblen p))
      end
  end.

Definition well_encoded (s : text) : bool :=
  well_encoded_loop (List.length s) s.

End Characters.

(** ** Edit scripts

    A script is run from left to right over the characters of the source:
    [Keep] copies a character, [Substitute c] replaces one by [c], [Delete]
    drops one, [Insert c] adds [c].  [run_script] gives the text produced
    and the total penalty, when the script fits the source. *)

Inductive edit : Type :=
| Keep
| Substitute (c : char)
| Delete
| Insert (c : char).

Section Scripts.

Variables ins_c del_c sub_c : Z.

Fixpoint run_script (es : list edit) (src : list char)
  : option (list char * Z) :=
  match es, src with
  | [], [] => Some ([], 0)
  | [], _ :: _ => None
  | Insert c :: es', _ =>
      match run_script es' src with
      | Some (out, p) => Some (c :: out, ins_c + p)
      | None => None
      end
  | Keep :: es', a :: src' =>
      match run_script es' src' with
      | Some (out, p) => Some (a :: out, p)
      | None => None
      end
  | Substitute c :: es', a :: src' =>
      match run_script es' src' with
      | Some (out, p) => Some (c :: out, sub_c + p)
      | None => None
      end
  | Delete :: es', a :: src' =>
      match run_script es' src' with
      | Some (out, p) => Some (out, del_c + p)
      | None => None
      end
  | _ :: _, [] => None
  end.

End Scripts.

(** Whether characters [i] of [cs] and [j] of [ct] are the same. *)
Definition same_chars (cs ct : list char) (i j : nat) : bool :=
  char_eqb (nth i cs []) (nth j ct []).

(** ** One script after another

    [then_script A B] is a script that does at once what [A] and then [B]
    do: each character that [A] produces is handed to the edit of [B] that
    takes it. *)

Definition then_edit (a b : edit) : list edit :=
  match a, b with
  | Insert c, Keep => [Insert c]
  | Insert _, Substitute d => [Insert d]
  | Insert _, Delete => []
  | Keep, b => [b]
  | Substitute c, Keep => [Substitute c]
  | Substitute _, b => [b]
  | _, _ => []
  end.

Fixpoint then_script (A : list edit) : list edit -> list edit :=
  match A with
  | [] => fun B => B
  | a :: A' =>
      fix feed (B : list edit) : list edit :=
        match a, B with
        | Delete, _ => Delete :: then_script A' B
        | _, [] => []
        | _, Insert d :: B' => Insert d :: feed B'
        | _, b :: B' => then_edit a b ++ then_script A' B'
        end
  end.


(** ** The matrix of the three-row engine

    The header comment of the three-row engine has [row2[j + 1]] hold the
    distance "between the substring of string1 of length i and the substring
    of string2 of length j + 1".  [swap_matrix i j] is that cell, by the
    recurrence of its inner loop: row [i] is computed from the two rows
    before it.  The engine indexes both strings by byte. *)

Section SwapMatrix.

Variables ins_c del_c sub_c trans_c : Z.
Variables string1 string2 : list byte.

Definition swap_value (i j : nat) (diag2 diag up left : Z) : Z :=
  let substitution :=
    if Byte.eqb (ptr_at string1 (Z.of_nat i)) (ptr_at string2 (Z.of_nat j))
    then diag else diag + sub_c in
  let deletion := up + del_c in
  let insertion := left + ins_c in
  let transposition := diag2 + trans_c in
  if swapped_match string1 string2 (Z.of_nat i) (Z.of_nat j)
  then Z.min (Z.min (Z.min substitution transposition) deletion) insertion
  else Z.min (Z.min substitution deletion) insertion.

Definition swap_next_row (i : nat) (r0 r1 : nat -> Z) : nat -> Z :=
  fix row (j : nat) : Z :=
    match j with
    | O => Z.of_nat (S i) * del_c
    | S j' => swap_value i j' (r0 (Nat.pred j')) (r1 j') (r1 (S j')) (row j')
    end.

Fixpoint swap_matrix_rows (i : nat) : (nat -> Z) * (nat -> Z) :=
  match i with
  | O => (fun _ => 0, fun j => Z.of_nat j * ins_c)
  | S i' =>
      let '(r0, r1) := swap_matrix_rows i' in (r1, swap_next_row i' r0 r1)
  end.

Definition swap_matrix (i j : nat) : Z := snd (swap_matrix_rows i) j.

(** A row of [len2 + 1] cells that holds row [i] of the matrix. *)
Definition row_is (len2 : nat) (row : list Z) (i : nat) : Prop :=
  List.length row = S len2
  /\ forall k : nat,
       (k <= len2)%nat -> rd row (Z.of_nat k) = swap_matrix i k.

End SwapMatrix.

(** The comparison of the three-row engine: byte [i] of [s] against byte
    [j] of [t]. *)
Definition byte_same (s t : list byte) (i j : nat) : bool :=
  Byte.eqb (ptr_at s (Z.of_nat i)) (ptr_at t (Z.of_nat j)).
(** * Properties *)

(** Closing the arithmetic side conditions of a conjunction. *)
Ltac finish := repeat split; auto; try lia; try (intros; lia).

(** ** Arrays *)

Lemma upd_nat_length (a : list Z) (k : nat) (v : Z) :
  List.length (upd_nat a k v) = List.length a.
Proof.
  revert k; induction a as [|w a IH]; intros [|k]; simpl; auto.
Qed.

Lemma nth_upd_nat_same (a : list Z) (k : nat) (v : Z) :
  (k < List.length a)%nat -> nth k (upd_nat a k v) 0 = v.
Proof.
  revert k; induction a as [|w a IH]; intros [|k]; simpl; intros H;
    try lia; auto.
  apply IH; lia.
Qed.

Lemma nth_upd_nat_other (a : list Z) (k l : nat) (v : Z) :
  k <> l -> nth l (upd_nat a k v) 0 = nth l a 0.
Proof.
  revert k l; induction a as [|w a IH]; intros [|k] [|l]; simpl; intros H;
    try congruence; auto.
Qed.

Lemma wr_length (a : list Z) (i v : Z) :
  List.length (wr a i v) = List.length a.
Proof. apply upd_nat_length. Qed.

Lemma rd_wr_same (a : list Z) (i v : Z) :
  0 <= i < Z.of_nat (List.length a) -> rd (wr a i v) i = v.
Proof. intros H; apply nth_upd_nat_same; lia. Qed.

Lemma rd_wr_other (a : list Z) (i k v : Z) :
  0 <= i -> 0 <= k -> i <> k -> rd (wr a i v) k = rd a k.
Proof. intros Hi Hk H; apply nth_upd_nat_other; lia. Qed.

Lemma palloc_ints_length (uninit : nat -> Z) (from len : Z) :
  List.length (palloc_ints uninit from len) = Z.to_nat len.
Proof. unfold palloc_ints; now rewrite length_map, length_seq. Qed.

Lemma Min_min (x y : Z) : Min x y = Z.min x y.
Proof. unfold Min; destruct (Z.ltb_spec x y); lia. Qed.

Lemma init_prev_length del_c cnt i prev :
  List.length (init_prev del_c cnt i prev) = List.length prev.
Proof.
  revert i prev; induction cnt as [|k IH]; intros i prev; simpl; auto.
  now rewrite IH, wr_length.
Qed.

Lemma init_prev_rd del_c cnt i prev k :
  0 <= i -> i + Z.of_nat cnt <= Z.of_nat (List.length prev) -> 0 <= k ->
  rd (init_prev del_c cnt i prev) k =
  if (i <=? k) && (k <? i + Z.of_nat cnt) then k * del_c else rd prev k.
Proof.
  revert i prev; induction cnt as [|c IH]; intros i prev Hi Hlen Hk;
    cbn [init_prev].
  - destruct (Z.leb_spec i k), (Z.ltb_spec k (i + Z.of_nat 0)); simpl; auto; lia.
  - rewrite IH by (rewrite ?wr_length; lia).
    destruct (Z.eq_dec k i) as [->|Hne].
    + rewrite rd_wr_same by lia.
      destruct (Z.leb_spec (i + 1) i), (Z.leb_spec i i),
               (Z.ltb_spec i (i + Z.of_nat (S c))); simpl; auto; lia.
    + rewrite rd_wr_other by lia.
      destruct (Z.leb_spec (i + 1) k), (Z.ltb_spec k (i + 1 + Z.of_nat c)),
               (Z.leb_spec i k), (Z.ltb_spec k (i + Z.of_nat (S c)));
        simpl; auto; lia.
Qed.

(** ** The inner loops fill one row by the recurrence *)

Section InnerLoops.

Variable pg_mblen : list byte -> Z.
Variables ins_c del_c sub_c : Z.
Variable s_char_len : option (list Z).
Variables s_data t_data : list byte.
Variables n t_bytes : Z.

Let xp := x_ptr s_char_len s_data.
Let yp := y_ptr pg_mblen t_data n t_bytes.
Let same := same_at pg_mblen s_char_len s_data t_data n t_bytes.
Let filled := row_filled pg_mblen ins_c del_c sub_c s_char_len s_data t_data
                         n t_bytes.

Lemma cell_step_value (a b c : Z) (curr : list Z) (i : Z) :
  0 <= i < Z.of_nat (List.length curr) ->
  rd (wr (wr curr i (Min a b)) i
         (Min (rd (wr curr i (Min a b)) i) c)) i
  = Z.min (Z.min a b) c.
Proof.
  intros H. rewrite !rd_wr_same by (rewrite ?wr_length; lia).
  now rewrite !Min_min.
Qed.

Lemma same_at_mb (scl : list Z) (i j : nat) :
  s_char_len = Some scl ->
  same i j = mb_char_same (xp i) (rd scl (Z.of_nat i))
                          (yp j) (y_len pg_mblen n t_bytes (yp j)).
Proof.
  unfold same, same_at, xp, yp, x_len. intros ->. reflexivity.
Qed.

Lemma same_at_sb (i j : nat) :
  s_char_len = None ->
  same i j = Byte.eqb (ptr_at (xp i) 0) (ptr_at (yp j) 0).
Proof.
  unfold same, same_at, xp, yp. intros ->. reflexivity.
Qed.

Lemma xp_succ_mb (scl : list Z) (i : nat) :
  s_char_len = Some scl ->
  xp (S i) = ptr_add (xp i) (rd scl (Z.of_nat i)).
Proof.
  unfold xp, x_len; cbn [x_ptr]; unfold x_len. intros ->. reflexivity.
Qed.

Lemma xp_succ_sb (i : nat) :
  s_char_len = None -> xp (S i) = ptr_add (xp i) 1.
Proof.
  unfold xp, x_len; cbn [x_ptr]; unfold x_len. intros ->. reflexivity.
Qed.

Lemma inner_mb_spec (scl : list Z) (j : nat) (prev : list Z) (cnt : nat) :
  s_char_len = Some scl ->
  forall (i0 : nat) (curr : list Z),
    (1 <= i0)%nat ->
    (i0 + cnt <= List.length curr)%nat ->
    let curr' :=
      inner_mb ins_c del_c sub_c scl (yp j)
               (y_len pg_mblen n t_bytes (yp j)) prev cnt
               (Z.of_nat i0) (xp (i0 - 1)%nat) curr in
    List.length curr' = List.length curr
    /\ (forall k : nat, (k < i0 \/ i0 + cnt <= k)%nat ->
          rd curr' (Z.of_nat k) = rd curr (Z.of_nat k))
    /\ filled j prev curr' i0 (i0 + cnt).
Proof.
  intros Hscl. induction cnt as [|c IH]; intros i0 curr Hi0 Hlen; cbn zeta.
  - cbn [inner_mb]. repeat split; auto. intros k Hk; lia.
  - cbn [inner_mb].
    set (v := Min (rd (wr curr (Z.of_nat i0) _) (Z.of_nat i0)) _).
    set (curr1 := wr (wr curr (Z.of_nat i0) _) (Z.of_nat i0) v).
    assert (Hx : ptr_add (xp (i0 - 1)%nat) (rd scl (Z.of_nat i0 - 1)) = xp (S i0 - 1)%nat).
    { replace (S i0 - 1)%nat with (S (i0 - 1)) by lia.
      rewrite (xp_succ_mb scl) by assumption. do 2 f_equal. lia. }
    rewrite Hx. replace (Z.of_nat i0 + 1) with (Z.of_nat (S i0)) by lia.
    assert (Hlen1 : List.length curr1 = List.length curr)
      by (unfold curr1; now rewrite !wr_length).
    destruct (IH (S i0) curr1) as (L & U & F); [lia | lia |].
    split; [congruence|]. split.
    + intros k Hk. rewrite U by lia. unfold curr1.
      rewrite !rd_wr_other by lia. reflexivity.
    + intros k Hk. destruct (Nat.eq_dec k i0) as [->|Hne].
      * rewrite U by lia.
        replace (Z.of_nat i0 - 1) with (Z.of_nat (i0 - 1)) by lia.
        rewrite (U (i0 - 1)%nat) by lia.
        unfold curr1 at 2. rewrite !rd_wr_other by lia.
        unfold curr1, v. rewrite cell_step_value by lia.
        unfold cell. rewrite (same_at_mb scl) by assumption.
        replace (Z.of_nat (i0 - 1)) with (Z.of_nat i0 - 1) by lia.
        destruct (mb_char_same _ _ _ _); f_equal; lia.
      * apply F; lia.
Qed.

Lemma inner_sb_spec (j : nat) (prev : list Z) (cnt : nat) :
  s_char_len = None ->
  forall (i0 : nat) (curr : list Z),
    (1 <= i0)%nat ->
    (i0 + cnt <= List.length curr)%nat ->
    let curr' :=
      inner_sb ins_c del_c sub_c (yp j) prev cnt
               (Z.of_nat i0) (xp (i0 - 1)%nat) curr in
    List.length curr' = List.length curr
    /\ (forall k : nat, (k < i0 \/ i0 + cnt <= k)%nat ->
          rd curr' (Z.of_nat k) = rd curr (Z.of_nat k))
    /\ filled j prev curr' i0 (i0 + cnt).
Proof.
  intros Hscl. induction cnt as [|c IH]; intros i0 curr Hi0 Hlen; cbn zeta.
  - cbn [inner_sb]. repeat split; auto. intros k Hk; lia.
  - cbn [inner_sb].
    set (v := Min (rd (wr curr (Z.of_nat i0) _) (Z.of_nat i0)) _).
    set (curr1 := wr (wr curr (Z.of_nat i0) _) (Z.of_nat i0) v).
    assert (Hx : ptr_add (xp (i0 - 1)%nat) 1 = xp (S i0 - 1)%nat).
    { replace (S i0 - 1)%nat with (S (i0 - 1)) by lia.
      now rewrite xp_succ_sb. }
    rewrite Hx. replace (Z.of_nat i0 + 1) with (Z.of_nat (S i0)) by lia.
    assert (Hlen1 : List.length curr1 = List.length curr)
      by (unfold curr1; now rewrite !wr_length).
    destruct (IH (S i0) curr1) as (L & U & F); [lia | lia |].
    split; [congruence|]. split.
    + intros k Hk. rewrite U by lia. unfold curr1.
      rewrite !rd_wr_other by lia. reflexivity.
    + intros k Hk. destruct (Nat.eq_dec k i0) as [->|Hne].
      * rewrite U by lia.
        replace (Z.of_nat i0 - 1) with (Z.of_nat (i0 - 1)) by lia.
        rewrite (U (i0 - 1)%nat) by lia.
        unfold curr1 at 2. rewrite !rd_wr_other by lia.
        unfold curr1, v. rewrite cell_step_value by lia.
        unfold cell. rewrite same_at_sb by assumption.
        replace (Z.of_nat (i0 - 1)) with (Z.of_nat i0 - 1) by lia.
        reflexivity.
      * apply F; lia.
Qed.

(** Both loops, as the engines call them. *)
Lemma inner_spec (j : nat) (prev : list Z) (i0 hi : nat) (curr : list Z) :
  (1 <= i0)%nat ->
  (hi <= List.length curr)%nat ->
  let curr' :=
    inner ins_c del_c sub_c s_char_len (yp j)
          (y_len pg_mblen n t_bytes (yp j)) prev
          (Z.of_nat i0) (Z.of_nat hi) (xp (i0 - 1)%nat) curr in
  List.length curr' = List.length curr
  /\ (forall k : nat, (k < i0 \/ hi <= k)%nat ->
        rd curr' (Z.of_nat k) = rd curr (Z.of_nat k))
  /\ filled j prev curr' i0 hi.
Proof.
  intros Hi0 Hhi. cbn zeta. unfold inner.
  replace (Z.to_nat (Z.of_nat hi - Z.of_nat i0)) with (hi - i0)%nat by lia.
  destruct (le_lt_dec hi i0) as [Hle|Hlt].
  - replace (hi - i0)%nat with 0%nat by lia.
    case s_char_len; cbn; repeat split; auto; intros k Hk; lia.
  - assert (C : s_char_len = None \/ exists scl, s_char_len = Some scl)
      by (case s_char_len; eauto).
    destruct C as [E|[scl E]]; rewrite E.
    + destruct (inner_sb_spec j prev (hi - i0) E i0 curr)
        as (L & U & F); [lia | lia |].
      replace (i0 + (hi - i0))%nat with hi in * by lia.
      repeat split; auto.
    + destruct (inner_mb_spec scl j prev (hi - i0) E i0 curr)
        as (L & U & F); [lia | lia |].
      replace (i0 + (hi - i0))%nat with hi in * by lia.
      repeat split; auto.
Qed.

End InnerLoops.

(** ** The unbounded engine computes the corner of the notional matrix *)

Lemma notional_row0 ins_c del_c sub_c same (i : nat) :
  notional ins_c del_c sub_c same 0 i = Z.of_nat i * del_c.
Proof. reflexivity. Qed.

Lemma notional_col0 ins_c del_c sub_c same (j : nat) :
  notional ins_c del_c sub_c same j 0 = Z.of_nat j * ins_c.
Proof. destruct j; [simpl; lia | reflexivity]. Qed.

Lemma notional_step ins_c del_c sub_c same (j i : nat) :
  notional ins_c del_c sub_c same (S j) (S i) =
  cell ins_c del_c sub_c
       (notional ins_c del_c sub_c same j (S i))
       (notional ins_c del_c sub_c same (S j) i)
       (notional ins_c del_c sub_c same j i) (same i j).
Proof. reflexivity. Qed.

Lemma mbstrlen_loop_ge pg_mblen fuel mbstr limit len :
  len <= mbstrlen_loop pg_mblen fuel mbstr limit len.
Proof.
  revert mbstr limit len; induction fuel as [|f IH]; intros; simpl; [lia|].
  destruct (0 <? limit); [|lia].
  specialize (IH (ptr_add mbstr (pg_mblen mbstr)) (limit - pg_mblen mbstr)
                 (len + 1)); lia.
Qed.

Lemma char_count_nonneg pg_mblen s : 0 <= char_count pg_mblen s.
Proof. apply mbstrlen_loop_ge. Qed.

Section UnboundedRows.

Variable pg_mblen : list byte -> Z.
Variables ins_c del_c sub_c : Z.
Variable s_char_len : option (list Z).
Variables s_data t_data : list byte.
Variables n t_bytes : Z.
(** Number of columns: the [m] of the engine after [++m]. *)
Variable cols : nat.

Let yp := y_ptr pg_mblen t_data n t_bytes.
Let same := same_at pg_mblen s_char_len s_data t_data n t_bytes.
Let N := notional ins_c del_c sub_c same.

Lemma row_filled_notional (j : nat) (prev curr : list Z) (hi : nat) :
  (forall i, (i < hi)%nat -> rd prev (Z.of_nat i) = N j i) ->
  rd curr 0 = N (S j) 0%nat ->
  row_filled pg_mblen ins_c del_c sub_c s_char_len s_data t_data n t_bytes
             j prev curr 1 hi ->
  forall i, (i < hi)%nat -> rd curr (Z.of_nat i) = N (S j) i.
Proof.
  intros Hprev H0 F i. induction i as [|i IH]; intros Hi; [exact H0|].
  rewrite F by lia. unfold N at 1. rewrite notional_step. fold N. fold same.
  replace (Z.of_nat (S i) - 1) with (Z.of_nat i) by lia.
  replace (S i - 1)%nat with i by lia.
  rewrite IH by lia. rewrite !Hprev by lia. reflexivity.
Qed.

Lemma rows_spec (cnt : nat) :
  forall (j : nat) (prev curr : list Z),
    (1 <= cols)%nat ->
    List.length prev = cols -> List.length curr = cols ->
    (forall i, (i < cols)%nat -> rd prev (Z.of_nat i) = N j i) ->
    let r := rows pg_mblen ins_c del_c sub_c s_char_len s_data
                  (Z.of_nat cols) n t_bytes cnt (Z.of_nat (S j)) (yp j)
                  prev curr in
    List.length (fst r) = cols
    /\ forall i, (i < cols)%nat -> rd (fst r) (Z.of_nat i) = N (j + cnt) i.
Proof.
  induction cnt as [|c IH]; intros j prev curr Hc Lp Lc Hprev; cbn zeta.
  - cbn [rows fst]. split; auto. intros i Hi.
    replace (j + 0)%nat with j by lia. auto.
  - cbn [rows].
    set (curr0 := wr curr 0 (Z.of_nat (S j) * ins_c)).
    assert (L0 : List.length curr0 = cols)
      by (unfold curr0; now rewrite wr_length).
    destruct (inner_spec pg_mblen ins_c del_c sub_c s_char_len s_data t_data
                n t_bytes j prev 1 cols curr0) as (L & U & F); [lia | lia |].
    cbn [x_ptr Nat.sub] in L, U, F. change (Z.of_nat 1) with 1 in *.
    fold yp in L, U, F |- *.
    set (curr1 := inner _ _ _ _ _ _ _ _ _ _ _) in *.
    replace (Z.of_nat (S j) + 1) with (Z.of_nat (S (S j))) by lia.
    change (ptr_add (yp j) (y_len pg_mblen n t_bytes (yp j))) with (yp (S j)).
    destruct (IH (S j) curr1 prev) as (L' & R'); auto; try congruence.
    + apply (row_filled_notional j prev curr1 cols); auto.
      generalize (U 0%nat); cbn [Z.of_nat]; intros ->; [|lia].
      unfold curr0. rewrite rd_wr_same by lia. unfold N; now rewrite notional_col0.
    + split; auto. intros i Hi. rewrite R' by lia. f_equal; lia.
Qed.

End UnboundedRows.

(** The rows of the two-row engines, from the row buffers as the engines
    set them up, end with the corner of the notional matrix in
    [prev[m - 1]]. *)
Lemma unbounded_rows_corner pg_mblen uninit (s t : text)
    (ins_c del_c sub_c : Z) :
  let m := char_count pg_mblen s in
  let n := char_count pg_mblen t in
  let t_bytes := VARSIZE_ANY_EXHDR t in
  let scl := make_s_char_len pg_mblen s m (VARSIZE_ANY_EXHDR s) n t_bytes in
  let prev := init_prev del_c (Z.to_nat (m + 1 - 0)) 0
                        (palloc_ints uninit 0 (m + 1)) in
  let curr := palloc_ints uninit (m + 1) (m + 1) in
  rd (fst (rows pg_mblen ins_c del_c sub_c scl s (m + 1) (n + 1) t_bytes
                (Z.to_nat (n + 1 - 1)) 1 t prev curr)) (m + 1 - 1)
  = notional ins_c del_c sub_c (engine_same pg_mblen s t)
             (Z.to_nat n) (Z.to_nat m).
Proof.
  cbn zeta.
  pose proof (char_count_nonneg pg_mblen s) as Hm.
  pose proof (char_count_nonneg pg_mblen t) as Hn.
  set (m := char_count pg_mblen s) in *.
  set (n := char_count pg_mblen t) in *.
  set (scl := make_s_char_len _ _ _ _ _ _).
  set (prev0 := init_prev _ _ _ _).
  set (curr0 := palloc_ints _ _ _).
  assert (Lp : List.length prev0 = Z.to_nat (m + 1)).
  { unfold prev0. now rewrite init_prev_length, palloc_ints_length. }
  assert (Lc : List.length curr0 = Z.to_nat (m + 1)).
  { unfold curr0. now rewrite palloc_ints_length. }
  pose proof (rows_spec pg_mblen ins_c del_c sub_c scl s t (n + 1)
                (VARSIZE_ANY_EXHDR t) (Z.to_nat (m + 1))
                (Z.to_nat (n + 1 - 1)) 0%nat prev0 curr0) as R.
  cbn zeta in R. cbn [y_ptr] in R.
  replace (Z.of_nat (Z.to_nat (m + 1))) with (m + 1) in R by lia.
  change (Z.of_nat 1) with 1 in R.
  destruct R as (L & R); try lia.
  { intros i Hi. rewrite notional_row0. unfold prev0.
    rewrite init_prev_rd; rewrite ?palloc_ints_length; try lia.
    destruct (Z.leb_spec 0 (Z.of_nat i)),
             (Z.ltb_spec (Z.of_nat i) (0 + Z.of_nat (Z.to_nat (m + 1 - 0))));
      simpl; lia. }
  replace (m + 1 - 1) with (Z.of_nat (Z.to_nat m)) by lia.
  rewrite R by lia. unfold engine_same. fold m n. fold scl.
  f_equal. lia.
Qed.

(** The outcome of the unbounded engine on every input. *)
Lemma internal_outcome pg_mblen uninit (s t : text) (ins_c del_c sub_c trans_c : Z) :
  dameraulevenshtein_internal pg_mblen uninit s t ins_c del_c sub_c trans_c =
  let m := char_count pg_mblen s in
  let n := char_count pg_mblen t in
  if (m =? 0) || (n =? 0) || ((m <=? 255) && (n <=? 255))
  then Ret (matrix_corner pg_mblen s t ins_c del_c sub_c)
  else InputTooLong 255.
Proof.
  cbn zeta. unfold dameraulevenshtein_internal, matrix_corner.
  fold (char_count pg_mblen s) (char_count pg_mblen t).
  pose proof (char_count_nonneg pg_mblen s) as Hm.
  pose proof (char_count_nonneg pg_mblen t) as Hn.
  pose proof (unbounded_rows_corner pg_mblen uninit s t ins_c del_c sub_c)
    as R. cbn zeta in R.
  set (m := char_count pg_mblen s) in *.
  set (n := char_count pg_mblen t) in *.
  destruct (Z.eqb_spec m 0) as [E|Em].
  { rewrite E. cbn [orb Z.to_nat]. rewrite notional_col0.
    now rewrite Z2Nat.id by lia. }
  destruct (Z.eqb_spec n 0) as [E|En].
  { rewrite E. cbn [orb Z.to_nat]. rewrite notional_row0.
    now rewrite Z2Nat.id by lia. }
  unfold MAX_DAMERAU_LEVENSHTEIN_STRLEN. cbn [orb].
  destruct (Z.ltb_spec 255 m), (Z.leb_spec m 255); try lia; cbn [orb andb]; auto.
  destruct (Z.ltb_spec 255 n), (Z.leb_spec n 255); try lia; cbn [orb andb]; auto.
  destruct (rows _ _ _ _ _ _ _ _ _ _ _ _ _ _) as [prev' curr'].
  cbn [fst] in R. now rewrite R.
Qed.

(** ** Facts about the notional matrix *)

Section MatrixFacts.

Variables ins_c del_c sub_c : Z.
Variable same : nat -> nat -> bool.

Let N := notional ins_c del_c sub_c same.

Lemma notional_del_step (j i : nat) : N j (S i) <= N j i + del_c.
Proof.
  unfold N. destruct j.
  - rewrite !notional_row0. lia.
  - rewrite notional_step. unfold cell. lia.
Qed.

Lemma notional_ins_step (j i : nat) : N (S j) i <= N j i + ins_c.
Proof.
  unfold N. destruct i.
  - rewrite !notional_col0. lia.
  - rewrite notional_step. unfold cell. lia.
Qed.

Lemma notional_sub_step (j i : nat) :
  N (S j) (S i) <= N j i + (if same i j then 0 else sub_c).
Proof. unfold N. rewrite notional_step. unfold cell. lia. Qed.

(** Deleting [k] more characters of [s]. *)
Lemma notional_del_steps (j i k : nat) :
  N j (i + k) <= N j i + Z.of_nat k * del_c.
Proof.
  induction k as [|k IH].
  - replace (i + 0)%nat with i by lia. lia.
  - replace (i + S k)%nat with (S (i + k)) by lia.
    pose proof (notional_del_step j (i + k)). lia.
Qed.

(** Inserting [k] more characters of [t]. *)
Lemma notional_ins_steps (j i k : nat) :
  N (j + k) i <= N j i + Z.of_nat k * ins_c.
Proof.
  induction k as [|k IH].
  - replace (j + 0)%nat with j by lia. lia.
  - replace (j + S k)%nat with (S (j + k)) by lia.
    pose proof (notional_ins_step (j + k) i). lia.
Qed.

(** Capping [sub_c] at [ins_c + del_c] does not change the matrix. *)
Lemma notional_capped (j i : nat) :
  notional ins_c del_c (capped_sub_c ins_c del_c sub_c) same j i = N j i.
Proof.
  revert i. induction j as [|j IHj]; intros i.
  - reflexivity.
  - induction i as [|i IHi].
    + unfold N. now rewrite !notional_col0.
    + unfold N. rewrite !notional_step. fold N.
      rewrite IHi, !IHj. unfold cell, capped_sub_c.
      pose proof (notional_del_step j i).
      destruct (same i j), (Z.ltb_spec (ins_c + del_c) sub_c); lia.
Qed.

Section Nonnegative.

Hypothesis ins_nonneg : 0 <= ins_c.
Hypothesis del_nonneg : 0 <= del_c.
Hypothesis sub_nonneg : 0 <= sub_c.

Lemma notional_drop_target (j i : nat) : N j i <= N (S j) i + del_c.
Proof.
  induction i as [|i IH].
  - unfold N. rewrite !notional_col0. lia.
  - pose proof (notional_del_step j i).
    unfold N at 2. rewrite notional_step. fold N. unfold cell.
    destruct (same i j); lia.
Qed.

Lemma notional_drop_source (j i : nat) : N j i <= N j (S i) + ins_c.
Proof.
  induction j as [|j IH].
  - unfold N. rewrite !notional_row0. lia.
  - pose proof (notional_ins_step j i).
    unfold N at 2. rewrite notional_step. fold N. unfold cell.
    destruct (same i j); lia.
Qed.

Lemma notional_diagonal (j i : nat) : N j i <= N (S j) (S i).
Proof.
  pose proof (notional_drop_target j i).
  pose proof (notional_drop_source j i).
  unfold N at 2. rewrite notional_step. fold N. unfold cell.
  destruct (same i j); lia.
Qed.

(** Substituting along the diagonal. *)
Lemma notional_diagonal_bound (k : nat) : N k k <= Z.of_nat k * sub_c.
Proof.
  induction k as [|k IH].
  - unfold N. rewrite notional_row0. lia.
  - pose proof (notional_sub_step k k). destruct (same k k); lia.
Qed.

(** The "theoretical maximum distance". *)
Lemma notional_upper_bound (n0 m0 : nat) :
  N n0 m0 <= max_theo_d (Z.of_nat m0) (Z.of_nat n0) ins_c del_c sub_c.
Proof.
  unfold max_theo_d, min_theo_d. rewrite Min_min.
  destruct (Z.ltb_spec (Z.of_nat n0 - Z.of_nat m0) 0) as [H|H].
  - pose proof (notional_del_steps n0 n0 (m0 - n0)) as D.
    replace (n0 + (m0 - n0))%nat with m0 in D by lia.
    pose proof (notional_diagonal_bound n0).
    rewrite Z.min_r by lia. rewrite Nat2Z.inj_sub in D by lia. lia.
  - pose proof (notional_ins_steps m0 m0 (n0 - m0)) as D.
    replace (m0 + (n0 - m0))%nat with n0 in D by lia.
    pose proof (notional_diagonal_bound m0).
    rewrite Z.min_l by lia. rewrite Nat2Z.inj_sub in D by lia. lia.
Qed.

End Nonnegative.

End MatrixFacts.

(** With the roles of the two strings and of insertion and deletion
    exchanged, the matrix is transposed. *)
Lemma notional_transpose ins_c del_c sub_c same (j i : nat) :
  notional ins_c del_c sub_c same j i =
  notional del_c ins_c sub_c (fun a b => same b a) i j.
Proof.
  revert i. induction j as [|j IHj]; intros i.
  - now rewrite notional_row0, notional_col0.
  - induction i as [|i IHi].
    + now rewrite notional_row0, notional_col0.
    + rewrite !notional_step, IHi, !IHj. unfold cell. lia.
Qed.

(** ** Cells within and out of the bound *)

Section WindowFacts.

Variables ins_c del_c sub_c max_d : Z.
Variable same : nat -> nat -> bool.
Variables m0 n0 : nat.

Hypothesis ins_nonneg : 0 <= ins_c.
Hypothesis del_nonneg : 0 <= del_c.
Hypothesis sub_nonneg : 0 <= sub_c.

Let N := notional ins_c del_c sub_c same.
Let res := residue ins_c del_c m0 n0.
Let ok := within ins_c del_c sub_c max_d same m0 n0.
Let fa := faithful ins_c del_c sub_c max_d same m0 n0.

Lemma residual_nonneg (k : Z) : 0 <= residual ins_c del_c k.
Proof. unfold residual. destruct (Z.ltb_spec 0 k); nia. Qed.

Lemma residual_up (k : Z) :
  residual ins_c del_c k <= ins_c + residual ins_c del_c (k - 1).
Proof.
  unfold residual.
  destruct (Z.ltb_spec 0 k), (Z.ltb_spec 0 (k - 1)); nia.
Qed.

Lemma residual_left (k : Z) :
  residual ins_c del_c k <= del_c + residual ins_c del_c (k + 1).
Proof.
  unfold residual.
  destruct (Z.ltb_spec 0 k), (Z.ltb_spec 0 (k + 1)); nia.
Qed.

Lemma residue_nonneg (i j : nat) : 0 <= res i j.
Proof. apply residual_nonneg. Qed.

Lemma residue_up (i j : nat) : res i j <= ins_c + res i (S j).
Proof.
  unfold res, residue, zero_point.
  replace (Z.of_nat i - (Z.of_nat (S j) - (Z.of_nat n0 - Z.of_nat m0)))
    with (Z.of_nat i - (Z.of_nat j - (Z.of_nat n0 - Z.of_nat m0)) - 1) by lia.
  apply residual_up.
Qed.

Lemma residue_left (i j : nat) : res i j <= del_c + res (S i) j.
Proof.
  unfold res, residue, zero_point.
  replace (Z.of_nat (S i) - (Z.of_nat j - (Z.of_nat n0 - Z.of_nat m0)))
    with (Z.of_nat i - (Z.of_nat j - (Z.of_nat n0 - Z.of_nat m0)) + 1) by lia.
  apply residual_left.
Qed.

Lemma residue_diagonal (i j : nat) : res (S i) (S j) = res i j.
Proof.
  unfold res, residue, zero_point. f_equal. lia.
Qed.

Lemma residue_corner : res m0 n0 = 0.
Proof.
  unfold res, residue, zero_point, residual.
  destruct (Z.ltb_spec 0
              (Z.of_nat m0 - (Z.of_nat n0 - (Z.of_nat n0 - Z.of_nat m0))));
    lia.
Qed.

Lemma residue_last_row (i : nat) :
  (i <= m0)%nat -> res i n0 = Z.of_nat (m0 - i) * del_c.
Proof.
  intros Hi. unfold res, residue, zero_point, residual.
  destruct (Z.ltb_spec 0
              (Z.of_nat i - (Z.of_nat n0 - (Z.of_nat n0 - Z.of_nat m0))));
    [lia|]. rewrite Nat2Z.inj_sub by lia. ring.
Qed.

(** A value that out-of-bound cells may be given. *)
Lemma faithful_sentinel (i j : nat) : ~ ok i j -> fa (max_d + 1) i j.
Proof.
  intros H. split; [tauto|]. intros _.
  pose proof (residue_nonneg i j). fold res. lia.
Qed.

Lemma faithful_exact (i j : nat) : fa (N j i) i j.
Proof.
  split; auto. unfold within. fold N res. lia.
Qed.

(** The test of the two slides decides [within] on a faithful value. *)
Lemma faithful_test (v : Z) (i j : nat) :
  fa v i j -> (v + res i j <= max_d <-> ok i j).
Proof.
  unfold fa, faithful, ok, within. fold N res. intros [H1 H2]. split.
  - intros H. destruct (Z_le_gt_dec (N j i + res i j) max_d); auto.
    assert (max_d < v + res i j) by (apply H2; lia). lia.
  - intros H. rewrite (H1 H). exact H.
Qed.

(** One step of the recurrence keeps the values faithful. *)
Lemma cell_faithful (a b c : Z) (i j : nat) :
  fa a (S i) j -> fa b i (S j) -> fa c i j ->
  fa (cell ins_c del_c sub_c a b c (same i j)) (S i) (S j).
Proof.
  pose proof (notional_step ins_c del_c sub_c same j i) as E. fold N in E.
  unfold fa, faithful, within. fold N res. rewrite E.
  rewrite residue_diagonal.
  pose proof (residue_up (S i) j) as Hu. rewrite residue_diagonal in Hu.
  pose proof (residue_left i (S j)) as Hl. rewrite residue_diagonal in Hl.
  unfold cell. destruct (same i j); lia.
Qed.

Lemma out_diagonal (i j : nat) : ~ ok i j -> ~ ok (S i) (S j).
Proof.
  unfold ok, within. fold N res. rewrite residue_diagonal.
  pose proof (notional_diagonal ins_c del_c sub_c same
                ins_nonneg del_nonneg sub_nonneg j i). fold N in H. lia.
Qed.

Lemma out_column0 (j : nat) : ~ ok 0%nat j -> ~ ok 0%nat (S j).
Proof.
  unfold ok, within. fold N res. unfold N. rewrite !notional_col0.
  pose proof (residue_up 0%nat j). lia.
Qed.

(** Once a whole row is out of the bound, so is the corner. *)
Lemma out_row_next (j : nat) :
  (forall i, (i <= m0)%nat -> ~ ok i j) ->
  forall i, (i <= m0)%nat -> ~ ok i (S j).
Proof.
  intros H [|i] Hi.
  - apply out_column0, H; lia.
  - apply out_diagonal, H; lia.
Qed.

Lemma out_row_corner (j : nat) :
  (j <= n0)%nat ->
  (forall i, (i <= m0)%nat -> ~ ok i j) ->
  max_d < N n0 m0.
Proof.
  intros Hj H.
  assert (R : forall k, forall i, (i <= m0)%nat -> ~ ok i (j + k)%nat).
  { induction k as [|k IH].
    - replace (j + 0)%nat with j by lia. exact H.
    - replace (j + S k)%nat with (S (j + k)) by lia.
      now apply out_row_next. }
  specialize (R (n0 - j)%nat m0 (Nat.le_refl _)).
  replace (j + (n0 - j))%nat with n0 in R by lia.
  unfold ok, within in R. fold N res in R. rewrite residue_corner in R. lia.
Qed.

Lemma out_row0 : ~ ok 0%nat 0%nat -> forall i, ~ ok i 0%nat.
Proof.
  intros H i. induction i as [|i IH]; auto.
  unfold ok, within in IH |- *. fold N res in IH |- *. unfold N in IH |- *.
  rewrite notional_row0 in IH |- *. pose proof (residue_left i 0%nat). lia.
Qed.

(** In the last row, a cell within the bound puts the corner within it. *)
Lemma last_row_within (i : nat) :
  (i <= m0)%nat -> ok i n0 -> ok m0 n0.
Proof.
  unfold ok, within. fold N res. intros Hi H.
  rewrite residue_corner. rewrite residue_last_row in H by assumption.
  pose proof (notional_del_steps ins_c del_c sub_c same n0 i (m0 - i)).
  fold N in H0. replace (i + (m0 - i))%nat with m0 in H0 by lia. lia.
Qed.

End WindowFacts.

(** The "theoretical minimum distance". *)
Lemma notional_lower_bound ins_c del_c sub_c same (m0 n0 : nat) :
  0 <= ins_c -> 0 <= del_c -> 0 <= sub_c ->
  min_theo_d (Z.of_nat m0) (Z.of_nat n0) ins_c del_c
  <= notional ins_c del_c sub_c same n0 m0.
Proof.
  intros Hi Hd Hs.
  set (lo := min_theo_d (Z.of_nat m0) (Z.of_nat n0) ins_c del_c).
  assert (E : lo = residue ins_c del_c m0 n0 0%nat 0%nat).
  { unfold lo, residue, zero_point, min_theo_d, residual. cbn [Z.of_nat].
    destruct (Z.ltb_spec (Z.of_nat n0 - Z.of_nat m0) 0),
             (Z.ltb_spec 0 (0 - (0 - (Z.of_nat n0 - Z.of_nat m0))));
      try lia.
    assert (Z.of_nat n0 - Z.of_nat m0 = 0) as -> by lia. lia. }
  assert (H : lo - 1 < notional ins_c del_c sub_c same n0 m0); [|lia].
  apply (out_row_corner ins_c del_c sub_c (lo - 1) same m0 n0 Hi Hd Hs 0%nat);
    [lia|].
  intros i _. apply out_row0; auto.
  unfold within. rewrite notional_row0, <- E. lia.
Qed.

(** ** The two slides of the window *)

Section Slides.

Variables ins_c del_c max_d : Z.
Variable s_char_len : option (list Z).
Variable s_data0 : list byte.

Let xp := x_ptr s_char_len s_data0.
Let test := slide_test ins_c del_c max_d.

Lemma slide_stop_spec (prev : list Z) (zp : Z) (fuel : nat) :
  forall hi : nat, (hi <= fuel)%nat ->
  exists b : nat,
    slide_stop ins_c del_c max_d fuel prev zp (Z.of_nat hi) = Z.of_nat b
    /\ (b <= hi)%nat
    /\ (b = 0%nat \/ test prev zp (b - 1)%nat)
    /\ (forall i, (b <= i < hi)%nat -> ~ test prev zp i).
Proof.
  induction fuel as [|f IH]; intros hi Hf.
  - exists 0%nat. assert (hi = 0%nat) by lia. subst hi. cbn.
    repeat split; auto. intros i Hi; lia.
  - cbn [slide_stop]. destruct (Z.ltb_spec 0 (Z.of_nat hi)) as [Hpos|Hz].
    + destruct (Z.leb_spec
                  (rd prev (Z.of_nat hi - 1)
                   + residual ins_c del_c (Z.of_nat hi - 1 - zp)) max_d)
        as [Hok|Hbad].
      * exists hi. repeat split; auto; [|intros i Hi; lia].
        right. unfold test, slide_test.
        replace (Z.of_nat (hi - 1)) with (Z.of_nat hi - 1) by lia. exact Hok.
      * replace (Z.of_nat hi - 1) with (Z.of_nat (hi - 1)) in * by lia.
        destruct (IH (hi - 1)%nat) as (b & E & Hb & Ht & Hn); [lia|].
        exists b. rewrite E. repeat split; auto; [lia|].
        intros i Hi. destruct (Nat.eq_dec i (hi - 1)) as [->|Hne].
        -- unfold test, slide_test. lia.
        -- apply Hn; lia.
    + exists 0%nat. assert (hi = 0%nat) by lia. subst hi.
      repeat split; auto. intros i Hi; lia.
Qed.

Lemma slide_start_spec (zp : Z) (b : nat) (fuel : nat) :
  forall (a : nat) (prev curr : list Z) (s_data : list byte),
    (b - a <= fuel)%nat ->
    (b <= List.length prev)%nat -> (b <= List.length curr)%nat ->
    exists (a' : nat) (prev' curr' : list Z) (s_data' : list byte),
      slide_start ins_c del_c max_d s_char_len fuel zp (Z.of_nat b)
                  prev curr s_data (Z.of_nat a)
      = (prev', curr', s_data', Z.of_nat a')
      /\ (a <= a')%nat /\ (a' <= b \/ a' = a)%nat
      /\ (a' < b -> test prev zp a')%nat
      /\ List.length prev' = List.length prev
      /\ List.length curr' = List.length curr
      /\ (forall i, (a <= i < a')%nat ->
            ~ test prev zp i
            /\ rd prev' (Z.of_nat i) = max_d + 1
            /\ rd curr' (Z.of_nat i) = max_d + 1)
      /\ (forall i, ~ (a <= i < a')%nat ->
            rd prev' (Z.of_nat i) = rd prev (Z.of_nat i)
            /\ rd curr' (Z.of_nat i) = rd curr (Z.of_nat i))
      /\ (s_data = xp (a - 1)%nat -> s_data' = xp (a' - 1)%nat).
Proof.
  induction fuel as [|f IH]; intros a prev curr s_data Hf Lp Lc.
  - exists a, prev, curr, s_data. cbn [slide_start]. finish.
  - cbn [slide_start].
    destruct (Z.ltb_spec (Z.of_nat a) (Z.of_nat b)) as [Hlt|Hge].
    2:{ exists a, prev, curr, s_data. finish. }
    destruct (Z.leb_spec
                (rd prev (Z.of_nat a)
                 + residual ins_c del_c (Z.of_nat a - zp)) max_d)
      as [Hok|Hbad].
    { exists a, prev, curr, s_data. finish. }
    set (prev1 := wr prev (Z.of_nat a) (max_d + 1)).
    set (curr1 := wr curr (Z.of_nat a) (max_d + 1)).
    set (s1 := if negb (Z.of_nat a =? 0) then _ else _).
    assert (Hs1 : s_data = xp (a - 1)%nat -> s1 = xp (S a - 1)%nat).
    { intros Hs. unfold s1.
      destruct (Z.eqb_spec (Z.of_nat a) 0) as [E|E]; cbn [negb].
      - assert (a = 0%nat) by lia. subst a. exact Hs.
      - replace (S a - 1)%nat with (S (a - 1)) by lia.
        unfold xp. cbn [x_ptr]. fold xp. rewrite Hs. unfold x_len.
        replace (Z.of_nat (a - 1)) with (Z.of_nat a - 1) by lia.
        reflexivity. }
    replace (Z.of_nat a + 1) with (Z.of_nat (S a)) by lia.
    destruct (IH (S a) prev1 curr1 s1) as
      (a' & prev' & curr' & s' & E & Ha & Hb & Ht & Lp' & Lc' & Hin & Hout
       & Hs');
      try (unfold prev1, curr1; rewrite ?wr_length; lia).
    exists a', prev', curr', s'. rewrite E.
    unfold prev1, curr1 in Lp', Lc'. rewrite wr_length in Lp', Lc'.
    assert (Ht1 : forall i, i <> a -> test prev1 zp i <-> test prev zp i).
    { intros i Hi. unfold test, slide_test, prev1.
      rewrite rd_wr_other by lia. tauto. }
    repeat split; auto; try lia.
    + intros H. apply Ht1; [lia|]. apply Ht; lia.
    + destruct (Nat.eq_dec i a) as [->|Hne].
      * unfold test, slide_test. lia.
      * intros T. apply Ht1 in T; auto. revert T. apply Hin; lia.
    + destruct (Nat.eq_dec i a) as [->|Hne].
      * destruct (Hout a) as [-> _]; [lia|]. unfold prev1.
        rewrite rd_wr_same; auto; lia.
      * apply Hin; lia.
    + destruct (Nat.eq_dec i a) as [->|Hne].
      * destruct (Hout a) as [_ ->]; [lia|]. unfold curr1.
        rewrite rd_wr_same; auto; lia.
      * apply Hin; lia.
    + destruct (Hout i) as [-> _]; [lia|]. unfold prev1.
      rewrite rd_wr_other; auto; lia.
    + destruct (Hout i) as [_ ->]; [lia|]. unfold curr1.
      rewrite rd_wr_other; auto; lia.
Qed.

End Slides.

(** ** One row of the bounded engine keeps the invariant *)

Section RowStep.

Variable pg_mblen : list byte -> Z.
Variables ins_c del_c sub_c max_d : Z.
Variable s_char_len : option (list Z).
Variables s_data0 t_data : list byte.
Variable t_bytes : Z.
Variables m0 n0 : nat.

Hypothesis ins_nonneg : 0 <= ins_c.
Hypothesis del_nonneg : 0 <= del_c.
Hypothesis sub_nonneg : 0 <= sub_c.
Hypothesis bound_nonneg : 0 <= max_d.

Let n := Z.of_nat (S n0).
Let m := Z.of_nat (S m0).
Let xp := x_ptr s_char_len s_data0.
Let yp := y_ptr pg_mblen t_data n t_bytes.
Let same := same_at pg_mblen s_char_len s_data0 t_data n t_bytes.
Let N := notional ins_c del_c sub_c same.
Let res := residue ins_c del_c m0 n0.
Let ok := within ins_c del_c sub_c max_d same m0 n0.
Let fa := faithful ins_c del_c sub_c max_d same m0 n0.
Let inv := window_inv pg_mblen ins_c del_c sub_c max_d s_char_len
                      s_data0 t_data t_bytes m0 n0.

(** [if (stop_column < m) { prev[stop_column] = max_d + 1; ++stop_column; }] *)
Lemma widen_spec (j a b : nat) (prev : list Z) :
  (a < b <= S m0)%nat ->
  List.length prev = S m0 ->
  (forall i, (a <= i < b)%nat -> fa (rd prev (Z.of_nat i)) i j) ->
  (forall i, (i < a)%nat -> rd prev (Z.of_nat i) = max_d + 1) ->
  (forall i, (b <= i <= m0)%nat -> ~ ok i j) ->
  exists (b' : nat) (prev1 : list Z),
    (if Z.of_nat b <? m
     then (wr prev (Z.of_nat b) (max_d + 1), Z.of_nat b + 1)
     else (prev, Z.of_nat b)) = (prev1, Z.of_nat b')
    /\ (b <= b' <= S m0)%nat
    /\ List.length prev1 = S m0
    /\ (forall i, (a <= i < b')%nat -> fa (rd prev1 (Z.of_nat i)) i j)
    /\ (forall i, (i < a)%nat -> rd prev1 (Z.of_nat i) = max_d + 1)
    /\ (forall i, (b' <= i <= m0)%nat -> ~ ok i (S j)).
Proof.
  intros Hab Lp Hwin Hleft Hright. unfold m.
  destruct (Z.ltb_spec (Z.of_nat b) (Z.of_nat (S m0))) as [Hlt|Hge].
  - exists (S b), (wr prev (Z.of_nat b) (max_d + 1)).
    split; [f_equal; lia|]. split; [lia|].
    split; [now rewrite wr_length|]. split; [|split].
    + intros i Hi. destruct (Nat.eq_dec i b) as [->|Hne].
      * rewrite rd_wr_same by lia.
        apply faithful_sentinel; auto. apply Hright; lia.
      * rewrite rd_wr_other by lia. apply Hwin; lia.
    + intros i Hi. rewrite rd_wr_other by lia. auto.
    + intros [|i] Hi; [lia|]. apply out_diagonal; auto. apply Hright; lia.
  - exists b, prev. do 5 (split; [auto; lia|]). intros; lia.
Qed.

(** [if (start_column == 0) { curr[0] = j * ins_c; i = 1; } else i = start_column;] *)
Lemma first_cell_spec (j a : nat) (curr : list Z) :
  List.length curr = S m0 ->
  (forall i, (i < a)%nat -> rd curr (Z.of_nat i) = max_d + 1) ->
  exists (i0 : nat) (curr0 : list Z),
    (if Z.of_nat a =? 0
     then (wr curr 0 (Z.of_nat (S j) * ins_c), 1)
     else (curr, Z.of_nat a)) = (curr0, Z.of_nat i0)
    /\ i0 = Nat.max a 1
    /\ List.length curr0 = S m0
    /\ xp (a - 1)%nat = xp (i0 - 1)%nat
    /\ (a = 0%nat -> rd curr0 0 = N (S j) 0%nat)
    /\ (forall i, (i < a)%nat -> rd curr0 (Z.of_nat i) = max_d + 1).
Proof.
  intros Lc Hleft. destruct (Z.eqb_spec (Z.of_nat a) 0) as [E|E].
  - assert (a = 0%nat) by lia. subst a.
    exists 1%nat, (wr curr 0 (Z.of_nat (S j) * ins_c)).
    split; [reflexivity|]. split; [reflexivity|].
    split; [now rewrite wr_length|]. split; [reflexivity|]. split.
    + intros _. rewrite rd_wr_same by lia. unfold N.
      now rewrite notional_col0.
    + intros i Hi; lia.
  - exists a, curr. split; [reflexivity|]. split; [lia|].
    split; [auto|]. split; [reflexivity|]. split; [lia|auto].
Qed.

Lemma out_left_next (j a : nat) :
  (forall i, (i < a)%nat -> ~ ok i j) ->
  forall i, (i < a)%nat -> ~ ok i (S j).
Proof.
  intros H [|i] Hi.
  - apply out_column0; auto.
  - apply out_diagonal; auto. apply H; lia.
Qed.

(** The row that the inner loop fills is faithful on the window. *)
Lemma new_row_faithful (j a b' : nat) (prev1 curr1 : list Z) :
  (forall i, (a <= i < b')%nat -> fa (rd prev1 (Z.of_nat i)) i j) ->
  (forall i, (i < a)%nat -> rd prev1 (Z.of_nat i) = max_d + 1) ->
  (forall i, (i < a)%nat -> ~ ok i j) ->
  (a = 0%nat -> rd curr1 0 = N (S j) 0%nat) ->
  (forall i, (i < a)%nat -> rd curr1 (Z.of_nat i) = max_d + 1) ->
  row_filled pg_mblen ins_c del_c sub_c s_char_len s_data0 t_data n t_bytes
             j prev1 curr1 (Nat.max a 1) b' ->
  forall i, (a <= i < b')%nat -> fa (rd curr1 (Z.of_nat i)) i (S j).
Proof.
  intros Hprev Hpl Hleft Hc0 Hcl F i.
  pose proof (out_left_next j a Hleft) as Hleft'.
  induction i as [|i IH]; intros Hi.
  - assert (a = 0%nat) by lia. cbn [Z.of_nat]. rewrite Hc0 by assumption.
    apply faithful_exact.
  - rewrite F by lia. fold same.
    replace (Z.of_nat (S i) - 1) with (Z.of_nat i) by lia.
    replace (S i - 1)%nat with i by lia.
    apply cell_faithful; auto.
    + apply Hprev; lia.
    + destruct (le_lt_dec a i) as [Hle|Hlt].
      * apply IH; lia.
      * rewrite Hcl by lia. apply faithful_sentinel; auto.
    + destruct (le_lt_dec a i) as [Hle|Hlt].
      * apply Hprev; lia.
      * rewrite Hpl by lia. apply faithful_sentinel; auto.
Qed.

Lemma row_body_spec (j : nat) (v : loop_vars) :
  (j < n0)%nat -> inv j v ->
  let v' := row_body pg_mblen ins_c del_c sub_c max_d s_char_len
                     m n t_bytes v in
  (v_stop_column v' <= v_start_column v' /\ max_d < N n0 m0)
  \/ (v_start_column v' < v_stop_column v' /\ inv (S j) (next_row v')).
Proof.
  intros Hj Hinv. destruct v as [prev curr sc st sd y jj].
  destruct Hinv as (a & b & Ha & Hb & Hab & Lp & Lc & Hwin & Hleft & Hright
                    & Hlast & Hsd & Hy & Hjj).
  cbn [v_prev v_curr v_start_column v_stop_column v_s_data v_y v_j] in *.
  subst sc st sd y jj.
  fold n in Hwin, Hleft, Hright, Hlast |- *.
  fold same in Hwin, Hleft, Hright, Hlast.
  fold ok in Hleft, Hright, Hlast. fold fa in Hwin. fold xp. fold yp.
  cbn zeta. unfold row_body.
  destruct (widen_spec j a b prev) as (b' & prev1 & E1 & Hb' & Lp1 & Hwin1
                                       & Hleft1 & Hright1); auto.
  { intros i Hi. apply Hleft; auto. }
  rewrite E1. clear E1.
  destruct (first_cell_spec j a curr) as (i0 & curr0 & E0 & Hi0 & Lc0 & Hx
                                          & Hc0 & Hcl0); auto.
  { intros i Hi. apply Hleft; auto. }
  rewrite E0. clear E0. rewrite Hx.
  destruct (inner_spec pg_mblen ins_c del_c sub_c s_char_len s_data0 t_data
              n t_bytes j prev1 i0 b' curr0) as (L1 & U1 & F1); [lia|lia|].
  fold xp yp in L1, U1, F1.
  set (curr1 := inner _ _ _ _ _ _ _ _ _ _ _) in *.
  assert (HF : forall i, (a <= i < b')%nat ->
                 fa (rd curr1 (Z.of_nat i)) i (S j)).
  { apply (new_row_faithful j a b' prev1 curr1); auto.
    - intros i Hi. apply Hleft; auto.
    - intros Ha0. generalize (U1 0%nat). cbn [Z.of_nat]. intros ->; [|lia].
      auto.
    - intros i Hi. rewrite U1 by lia. auto.
    - now rewrite <- Hi0. }
  assert (HL' : forall i, (i < a)%nat -> ~ ok i (S j)).
  { apply out_left_next. intros i Hi. apply Hleft; auto. }
  assert (Hcl1 : forall i, (i < a)%nat -> rd curr1 (Z.of_nat i) = max_d + 1).
  { intros i Hi. rewrite U1 by lia. auto. }
  destruct (Z.leb_spec 0 max_d) as [_|]; [|lia].
  replace (Z.of_nat (S j) - (n - m)) with (zero_point m0 n0 (S j))
    by (unfold zero_point, n, m; lia).
  set (zp := zero_point m0 n0 (S j)).
  assert (Htest : forall i, (a <= i < b')%nat ->
                    (slide_test ins_c del_c max_d curr1 zp i <-> ok i (S j))).
  { intros i Hi. apply (faithful_test ins_c del_c sub_c max_d same m0 n0).
    apply HF; auto. }
  assert (Htest0 : forall i, (i < a)%nat ->
                     ~ slide_test ins_c del_c max_d curr1 zp i).
  { intros i Hi. unfold slide_test. rewrite Hcl1 by assumption.
    pose proof (residual_nonneg ins_c del_c ins_nonneg del_nonneg
                  (Z.of_nat i - zp)). lia. }
  rewrite Nat2Z.id.
  destruct (slide_stop_spec ins_c del_c max_d curr1 zp b' b' (le_n _))
    as (b2 & E2 & Hb2 & Ht2 & Hn2).
  rewrite E2. clear E2.
  replace (Z.to_nat (Z.of_nat b2 - Z.of_nat a)) with (b2 - a)%nat by lia.
  destruct (slide_start_spec ins_c del_c max_d s_char_len s_data0 zp b2
              (b2 - a) a curr1 prev1 (xp (i0 - 1)%nat))
    as (a2 & prev2 & curr2 & sd2 & E3 & Ha2 & Hab2 & Ht3 & Lp2 & Lc2 & Hin
        & Hout & Hsd2); [lia | lia | lia |].
  fold xp in Hsd2. rewrite E3. clear E3.
  rewrite Hsd2 by (now rewrite <- Hx). clear Hsd2.
  cbn [v_start_column v_stop_column].
  assert (HR : forall i, (b2 <= i <= m0)%nat -> ~ ok i (S j)).
  { intros i Hi. destruct (le_lt_dec b' i) as [H1|H1].
    - apply Hright1; lia.
    - destruct (le_lt_dec a i) as [H2|H2].
      + intros Hok. apply Htest in Hok; [|lia]. revert Hok. apply Hn2; lia.
      + apply HL'; auto. }
  assert (HB : b2 = 0%nat \/ (a < b2)%nat /\ ok (b2 - 1)%nat (S j)).
  { destruct (Nat.eq_dec b2 0) as [Hz|Hz]; [now left|right].
    destruct Ht2 as [H0|Ht]; [lia|].
    destruct (le_lt_dec b2 a) as [H1|H1].
    - exfalso. revert Ht. apply Htest0. lia.
    - split; auto. apply Htest; auto. lia. }
  assert (Hmid : forall i, (a <= i < a2)%nat -> ~ ok i (S j)).
  { intros i Hi Hok. destruct (Hin i Hi) as (Hnt & _). apply Hnt.
    apply Htest; auto. lia. }
  destruct (le_lt_dec b2 a2) as [Hcross|Hopen].
  - left. split; [lia|].
    apply (out_row_corner ins_c del_c sub_c max_d same m0 n0
             ins_nonneg del_nonneg sub_nonneg (S j)); [lia|].
    intros i Hi. destruct (le_lt_dec b2 i) as [H1|H1].
    + apply HR; lia.
    + destruct (le_lt_dec a i) as [H2|H2].
      * apply Hmid; lia.
      * apply HL'; auto.
  - right. split; [lia|]. exists a2, b2.
    cbn [next_row v_prev v_curr v_start_column v_stop_column v_s_data v_y v_j].
    split; [reflexivity|]. split; [reflexivity|]. split; [lia|].
    split; [congruence|]. split; [congruence|].
    fold n. fold same. fold ok. fold fa. split; [|split; [|split; [|split]]].
    + intros i Hi. destruct (Hout i) as [-> _]; [lia|]. apply HF; lia.
    + intros i Hi. destruct (le_lt_dec a i) as [H2|H2].
      * destruct (Hin i) as (_ & -> & ->); [lia|].
        finish; try (apply Hmid; lia).
      * destruct (Hout i) as [-> ->]; [lia|].
        rewrite Hcl1, Hleft1 by assumption. finish; try (apply HL'; auto).
    + exact HR.
    + intros _. destruct HB as [Hz|[_ Hok]]; [lia|exact Hok].
    + split; [reflexivity|]. split; [reflexivity|]. lia.
Qed.

End RowStep.

(** ** The row loop of the bounded engine *)

Section RowLoop.

Variable pg_mblen : list byte -> Z.
Variables ins_c del_c sub_c max_d : Z.
Variable s_char_len : option (list Z).
Variables s_data0 t_data : list byte.
Variable t_bytes : Z.
Variables m0 n0 : nat.

Let n := Z.of_nat (S n0).
Let m := Z.of_nat (S m0).
Let same := same_at pg_mblen s_char_len s_data0 t_data n t_bytes.
Let N := notional ins_c del_c sub_c same.
Let inv := window_inv pg_mblen ins_c del_c sub_c max_d s_char_len
                      s_data0 t_data t_bytes m0 n0.
Let loop := rows_le pg_mblen ins_c del_c sub_c max_d s_char_len m n t_bytes.

Lemma rows_le_step (cnt : nat) (v : loop_vars) :
  loop (S cnt) v =
  let v' := row_body pg_mblen ins_c del_c sub_c max_d s_char_len
                     m n t_bytes v in
  if (0 <=? max_d) && (v_stop_column v' <=? v_start_column v')
  then max_d + 1
  else loop cnt (next_row v').
Proof.
  unfold loop. cbn [rows_le]. unfold row_le. cbn zeta.
  destruct (_ && _); [reflexivity|].
  destruct (row_body _ _ _ _ _ _ _ _ _ _); reflexivity.
Qed.

Section Windowed.

Hypothesis ins_nonneg : 0 <= ins_c.
Hypothesis del_nonneg : 0 <= del_c.
Hypothesis sub_nonneg : 0 <= sub_c.
Hypothesis bound_nonneg : 0 <= max_d.

(** With a window, the loop returns the corner of the notional matrix when
    it is at most [max_d], and [max_d + 1] otherwise. *)
Lemma rows_le_windowed (cnt : nat) :
  forall (j : nat) (v : loop_vars),
    (j + cnt = n0)%nat -> (1 <= n0)%nat -> inv j v ->
    loop cnt v = Z.min (N n0 m0) (max_d + 1).
Proof.
  induction cnt as [|c IH]; intros j v Hcnt Hn0 Hinv.
  - assert (j = n0) by lia. subst j.
    destruct Hinv as (a & b & Ha & Hb & Hab & Lp & Lc & Hwin & Hleft & Hright
                      & Hlast & _).
    fold n same in Hwin, Hright, Hlast.
    specialize (Hlast Hn0).
    assert (Hok : within ins_c del_c sub_c max_d same m0 n0 m0 n0).
    { apply (last_row_within ins_c del_c sub_c max_d same m0 n0 (b - 1));
        auto. lia. }
    assert (b = S m0).
    { destruct (le_lt_dec b m0) as [H|H]; [|lia].
      exfalso. apply (Hright m0); auto. }
    subst b. destruct (Hwin m0) as [Hv _]; [lia|].
    unfold loop. cbn [rows_le]. unfold m.
    replace (Z.of_nat (S m0) - 1) with (Z.of_nat m0) by lia.
    rewrite (Hv Hok). fold N.
    unfold within in Hok. fold N in Hok.
    rewrite (residue_corner ins_c del_c m0 n0) in Hok. lia.
  - rewrite rows_le_step. cbn zeta.
    pose proof (row_body_spec pg_mblen ins_c del_c sub_c max_d s_char_len
                  s_data0 t_data t_bytes m0 n0
                  ins_nonneg del_nonneg sub_nonneg bound_nonneg j v) as H.
    cbn zeta in H. fold m n same N inv in H.
    set (v' := row_body _ _ _ _ _ _ _ _ _ _) in *.
    destruct H as [[Hx Hbig]|[Hx Hinv']]; auto; [lia| |].
    + destruct (Z.leb_spec 0 max_d); [|lia].
      destruct (Z.leb_spec (v_stop_column v') (v_start_column v')); [|lia].
      cbn [andb]. lia.
    + destruct (Z.leb_spec (v_stop_column v') (v_start_column v')); [lia|].
      rewrite andb_false_r. apply (IH (S j)); auto. lia.
Qed.

End Windowed.

(** Without a bound ([max_d < 0]) and with the full window, the loop is
    the loop of the unbounded engine. *)
Lemma rows_le_unbounded (cnt : nat) :
  max_d < 0 ->
  forall (j : Z) (y : list byte) (prev curr : list Z),
    loop cnt (LoopVars prev curr 0 m s_data0 y j) =
    rd (fst (rows pg_mblen ins_c del_c sub_c s_char_len s_data0
                  m n t_bytes cnt j y prev curr)) (m - 1).
Proof.
  intros Hneg. induction cnt as [|c IH]; intros j y prev curr.
  - reflexivity.
  - rewrite rows_le_step. cbn zeta. unfold row_body.
    rewrite Z.ltb_irrefl. cbn [Z.eqb].
    destruct (Z.leb_spec 0 max_d); [lia|]. cbn [andb next_row].
    cbn [v_prev v_curr v_start_column v_stop_column v_s_data v_y v_j].
    unfold next_row.
    cbn [v_prev v_curr v_start_column v_stop_column v_s_data v_y v_j].
    rewrite IH. reflexivity.
Qed.

End RowLoop.

(** ** The block that sets the bound up *)

Section Setup.

Variables ins_c del_c sub_c max_d : Z.
Variables m n : Z.

Hypothesis ins_nonneg : 0 <= ins_c.
Hypothesis del_nonneg : 0 <= del_c.
Hypothesis sub_nonneg : 0 <= sub_c.
Hypothesis m_pos : 1 <= m.
Hypothesis n_pos : 1 <= n.

Lemma capped_sub_c_nonneg : 0 <= capped_sub_c ins_c del_c sub_c.
Proof. unfold capped_sub_c. destruct (_ <? _); lia. Qed.

Lemma min_theo_d_residual :
  min_theo_d m n ins_c del_c = residual ins_c del_c (n - m).
Proof.
  unfold min_theo_d, residual.
  destruct (Z.ltb_spec (n - m) 0), (Z.ltb_spec 0 (n - m)); try lia.
  assert (n - m = 0) as -> by lia. lia.
Qed.

Lemma min_theo_d_nonneg : 0 <= min_theo_d m n ins_c del_c.
Proof. rewrite min_theo_d_residual. now apply residual_nonneg. Qed.

(** The four ways through the block. *)
Lemma bound_setup_cases :
  let r := bound_setup m n ins_c del_c sub_c max_d (m + 1) in
  let sub' := capped_sub_c ins_c del_c sub_c in
  let lo := min_theo_d m n ins_c del_c in
  let hi := max_theo_d m n ins_c del_c sub' in
  (max_d < 0 /\ r = SetupGo sub_c max_d (m + 1))
  \/ (0 <= max_d < lo /\ r = SetupReturn (max_d + 1))
  \/ (0 <= max_d /\ lo <= max_d /\ hi <= max_d
      /\ r = SetupGo sub' (-1) (m + 1))
  \/ (0 <= max_d /\ lo <= max_d < hi
      /\ exists stop0,
           r = SetupGo sub' max_d stop0
           /\ 1 <= stop0 <= m + 1
           /\ forall i, stop0 <= i <= m ->
                max_d < i * del_c + residual ins_c del_c (i - (m - n))).
Proof.
  cbn zeta. unfold bound_setup.
  destruct (Z.leb_spec 0 max_d) as [Hb|Hb]; [|left; split; [lia|auto]].
  right. destruct (Z.ltb_spec max_d (min_theo_d m n ins_c del_c)) as [Hlo|Hlo];
    [left; split; [lia|auto]|].
  right.
  destruct (Z.leb_spec (max_theo_d m n ins_c del_c
                                   (capped_sub_c ins_c del_c sub_c)) max_d)
    as [Hhi|Hhi]; [left; repeat split; auto|].
  right. split; [lia|]. split; [lia|].
  assert (Hd : 0 < ins_c + del_c).
  { destruct (Z_lt_le_dec 0 (ins_c + del_c)) as [H|H]; auto. exfalso.
    assert (ins_c = 0) by lia. assert (del_c = 0) by lia. subst ins_c del_c.
    unfold max_theo_d, capped_sub_c, min_theo_d in *.
    generalize dependent (Min m n). intros k Hk.
    destruct (Z.ltb_spec (0 + 0) sub_c) as [Hs|Hs].
    - destruct (Z.ltb_spec (n - m) 0); lia.
    - assert (Hz : sub_c * k = 0) by (assert (sub_c = 0) as -> by lia; lia).
      rewrite Hz in Hk. destruct (Z.ltb_spec (n - m) 0); lia. }
  destruct (Z.ltb_spec 0 (ins_c + del_c)); [|lia].
  unfold int_div. destruct (Z.eqb_spec (ins_c + del_c) 0); [lia|].
  set (lo := min_theo_d m n ins_c del_c) in *.
  set (q := Z.quot (max_d - lo) (ins_c + del_c)).
  assert (Hq : 0 <= q /\ max_d - lo < (ins_c + del_c) * (q + 1)).
  { unfold q. rewrite Z.quot_div_nonneg by lia. split.
    - apply Z.div_pos; lia.
    - apply Z.mul_succ_div_gt; lia. }
  eexists. split; [reflexivity|]. split.
  - destruct (Z.ltb_spec (n - m) 0), (Z.ltb_spec m (- (n - m) + q + 1)),
             (Z.ltb_spec m (0 + q + 1)); lia.
  - intros i Hi. unfold lo, min_theo_d in *. unfold residual.
    destruct (Z.ltb_spec (n - m) 0), (Z.ltb_spec 0 (i - (m - n)));
      destruct (Z.ltb_spec m (- (n - m) + q + 1)),
               (Z.ltb_spec m (0 + q + 1)); try lia; nia.
Qed.

End Setup.

(** ** The outcome of the bounded engine *)

(** The invariant holds on entry to the row loop. *)
Lemma window_inv_entry pg_mblen uninit ins_c del_c sub_c max_d scl
    (s t : text) t_bytes (m0 n0 : nat) (stop0 : Z) :
  0 <= ins_c -> 0 <= del_c -> 0 <= sub_c ->
  1 <= stop0 <= Z.of_nat m0 + 1 ->
  (forall i, stop0 <= i <= Z.of_nat m0 ->
     max_d < i * del_c
             + residual ins_c del_c (i - (Z.of_nat m0 - Z.of_nat n0))) ->
  window_inv pg_mblen ins_c del_c sub_c max_d scl s t t_bytes m0 n0 0%nat
    (LoopVars
       (init_prev del_c (Z.to_nat (stop0 - 0)) 0
                  (palloc_ints uninit 0 (Z.of_nat m0 + 1)))
       (palloc_ints uninit (Z.of_nat m0 + 1) (Z.of_nat m0 + 1))
       0 stop0 s t 1).
Proof.
  intros Hi Hd Hs Hstop Hout.
  exists 0%nat, (Z.to_nat stop0).
  cbn [v_prev v_curr v_start_column v_stop_column v_s_data v_y v_j].
  assert (Hrd : forall i, (i < Z.to_nat stop0)%nat ->
            rd (init_prev del_c (Z.to_nat (stop0 - 0)) 0
                  (palloc_ints uninit 0 (Z.of_nat m0 + 1))) (Z.of_nat i)
            = Z.of_nat i * del_c).
  { intros i Hlt. rewrite init_prev_rd;
      rewrite ?palloc_ints_length; try lia.
    destruct (Z.leb_spec 0 (Z.of_nat i)),
             (Z.ltb_spec (Z.of_nat i) (0 + Z.of_nat (Z.to_nat (stop0 - 0))));
      simpl; lia. }
  split; [reflexivity|]. split; [lia|]. split; [lia|].
  split; [rewrite init_prev_length, palloc_ints_length; lia|].
  split; [rewrite palloc_ints_length; lia|].
  split; [|split; [|split; [|split; [|split; [|split]]]]];
    try reflexivity; try (intros; lia).
  - intros i Hlt. rewrite Hrd by lia. rewrite <- notional_row0 with
      (ins_c := ins_c) (sub_c := sub_c)
      (same := same_at pg_mblen scl s t (Z.of_nat (S n0)) t_bytes).
    apply faithful_exact.
  - intros i Hlt. unfold within, residue, zero_point.
    rewrite notional_row0. cbn [Z.of_nat].
    specialize (Hout (Z.of_nat i)).
    replace (Z.of_nat i - (0 - (Z.of_nat n0 - Z.of_nat m0)))
      with (Z.of_nat i - (Z.of_nat m0 - Z.of_nat n0)) by lia.
    lia.
Qed.

(** The outcome of the bounded engine on every input, for costs that are
    not negative. *)
Lemma less_equal_outcome pg_mblen uninit (s t : text)
    (ins_c del_c sub_c trans_c max_d : Z) :
  0 <= ins_c -> 0 <= del_c -> 0 <= sub_c ->
  dameraulevenshtein_less_equal_internal pg_mblen uninit s t
    ins_c del_c sub_c trans_c max_d =
  let m := char_count pg_mblen s in
  let n := char_count pg_mblen t in
  let d := matrix_corner pg_mblen s t ins_c del_c sub_c in
  if (m =? 0) || (n =? 0) then Ret d
  else if (255 <? m) || (255 <? n) then InputTooLong 255
  else if max_d <? 0 then Ret d
  else Ret (Z.min d (max_d + 1)).
Proof.
  intros Hi Hd Hs. cbn zeta.
  unfold dameraulevenshtein_less_equal_internal, less_equal_prologue,
         matrix_corner.
  fold (char_count pg_mblen s) (char_count pg_mblen t).
  pose proof (char_count_nonneg pg_mblen s) as Hm.
  pose proof (char_count_nonneg pg_mblen t) as Hn.
  pose proof (fun c => unbounded_rows_corner pg_mblen uninit s t ins_c del_c c)
    as R. cbn zeta in R.
  assert (Es : engine_same pg_mblen s t =
               same_at pg_mblen
                 (make_s_char_len pg_mblen s (char_count pg_mblen s)
                    (VARSIZE_ANY_EXHDR s) (char_count pg_mblen t)
                    (VARSIZE_ANY_EXHDR t))
                 s t (char_count pg_mblen t + 1) (VARSIZE_ANY_EXHDR t))
    by reflexivity.
  set (same := engine_same pg_mblen s t) in *.
  set (m := char_count pg_mblen s) in *.
  set (n := char_count pg_mblen t) in *.
  set (scl := make_s_char_len _ _ _ _ _ _) in *.
  destruct (Z.eqb_spec m 0) as [E|Em].
  { rewrite E. cbn [orb Z.to_nat]. rewrite notional_col0.
    now rewrite Z2Nat.id by lia. }
  destruct (Z.eqb_spec n 0) as [E|En].
  { rewrite E. cbn [orb Z.to_nat]. rewrite notional_row0.
    now rewrite Z2Nat.id by lia. }
  unfold MAX_DAMERAU_LEVENSHTEIN_STRLEN. cbn [orb].
  destruct ((255 <? m) || (255 <? n)); [reflexivity|].
  assert (Em0 : m = Z.of_nat (Z.to_nat m)) by lia.
  assert (En0 : n = Z.of_nat (Z.to_nat n)) by lia.
  set (m0 := Z.to_nat m) in *. set (n0 := Z.to_nat n) in *.
  clearbody m0 n0 scl same m n. subst m n.
  pose proof (notional_capped ins_c del_c sub_c same n0 m0) as Hcap.
  pose proof (capped_sub_c_nonneg ins_c del_c sub_c Hi Hd Hs) as Hs'.
  set (sub' := capped_sub_c ins_c del_c sub_c) in *.
  destruct (bound_setup_cases ins_c del_c sub_c max_d
              (Z.of_nat m0) (Z.of_nat n0) Hi Hd Hs)
    as [(Hneg & ->)|[(Hlow & ->)|[(Hb & Hlo & Hhi & ->)
        |(Hb & Hlo & stop0 & -> & Hstop & Hout)]]]; try lia.
  - (* no bound *)
    cbn [e_sub_c e_max_d e_s_char_len e_m e_n e_t_bytes e_vars].
    replace (Z.of_nat m0 + 1) with (Z.of_nat (S m0)) in * by lia.
    replace (Z.of_nat n0 + 1) with (Z.of_nat (S n0)) in * by lia.
    rewrite rows_le_unbounded by lia. rewrite R.
    destruct (Z.ltb_spec max_d 0); [reflexivity|lia].
  - (* the bound is below the theoretical minimum *)
    pose proof (notional_lower_bound ins_c del_c sub_c same m0 n0 Hi Hd Hs).
    destruct (Z.ltb_spec max_d 0); [lia|]. f_equal. lia.
  - (* the bound is above the theoretical maximum *)
    cbn [e_sub_c e_max_d e_s_char_len e_m e_n e_t_bytes e_vars].
    fold sub' in Hhi |- *.
    pose proof (notional_upper_bound ins_c del_c sub' same Hs' n0 m0).
    replace (Z.of_nat m0 + 1) with (Z.of_nat (S m0)) in * by lia.
    replace (Z.of_nat n0 + 1) with (Z.of_nat (S n0)) in * by lia.
    rewrite rows_le_unbounded by lia. rewrite R, Hcap.
    destruct (Z.ltb_spec max_d 0); [lia|]. f_equal. lia.
  - (* a window *)
    cbn [e_sub_c e_max_d e_s_char_len e_m e_n e_t_bytes e_vars].
    fold sub'.
    pose proof (window_inv_entry pg_mblen uninit ins_c del_c sub' max_d scl
                  s t (VARSIZE_ANY_EXHDR t) m0 n0 stop0 Hi Hd Hs' Hstop Hout)
      as Hinv.
    replace (Z.of_nat m0 + 1) with (Z.of_nat (S m0)) in * by lia.
    replace (Z.of_nat n0 + 1) with (Z.of_nat (S n0)) in * by lia.
    replace (Z.to_nat (Z.of_nat (S n0) - 1)) with n0 by lia.
    rewrite (rows_le_windowed pg_mblen ins_c del_c sub' max_d scl s t
               (VARSIZE_ANY_EXHDR t) m0 n0 Hi Hd Hs' Hb n0 0%nat);
      auto; try lia.
    rewrite <- Es, Hcap.
    destruct (Z.ltb_spec max_d 0); [lia|]. reflexivity.
Qed.

(** ** The ordering of the window *)

Lemma inner_length ins_c del_c sub_c scl y yl prev i stop x curr :
  List.length (inner ins_c del_c sub_c scl y yl prev i stop x curr)
  = List.length curr.
Proof.
  unfold inner. generalize (Z.to_nat (stop - i)). intros cnt.
  destruct scl as [l|]; revert i x curr;
    induction cnt as [|c IH]; intros i x curr; cbn; auto;
    rewrite IH, !wr_length; reflexivity.
Qed.

Section WindowOrder.

Variable pg_mblen : list byte -> Z.
Variables ins_c del_c sub_c max_d : Z.
Variable s_char_len : option (list Z).
Variables m n t_bytes : Z.
Variable cols : nat.

Hypothesis m_cols : m = Z.of_nat cols.

Lemma row_body_shape (v : loop_vars) :
  window_shape m cols v ->
  let v' := row_body pg_mblen ins_c del_c sub_c max_d s_char_len
                     m n t_bytes v in
  v_start_column v <= v_start_column v'
  /\ 0 <= v_stop_column v' <= m
  /\ List.length (v_prev v') = cols /\ List.length (v_curr v') = cols
  /\ (0 <= max_d /\ v_stop_column v' <= v_start_column v'
      \/ window_shape m cols (next_row v')).
Proof.
  destruct v as [prev curr sc st sd y j].
  intros ((H1 & H2) & Lp & Lc).
  cbn [v_prev v_curr v_start_column v_stop_column] in *.
  cbn zeta. unfold row_body.
  set (ws := if st <? m then _ else _).
  assert (Hws : exists b : nat, snd ws = Z.of_nat b /\ st <= Z.of_nat b <= m
                                /\ List.length (fst ws) = cols).
  { unfold ws. destruct (Z.ltb_spec st m); cbn [fst snd].
    - exists (Z.to_nat (st + 1)). rewrite wr_length. lia.
    - exists (Z.to_nat st). lia. }
  destruct ws as [prev1 st1]. cbn [fst snd] in Hws.
  destruct Hws as (b & -> & Hb & Lp1).
  set (fc := if sc =? 0 then _ else _).
  assert (Hfc : List.length (fst fc) = cols).
  { unfold fc. destruct (sc =? 0); cbn [fst]; rewrite ?wr_length; auto. }
  destruct fc as [curr0 i0]. cbn [fst] in Hfc.
  set (curr1 := inner _ _ _ _ _ _ _ _ _ _ _).
  assert (L1 : List.length curr1 = cols).
  { unfold curr1. now rewrite inner_length. }
  destruct (Z.leb_spec 0 max_d) as [Hb0|Hb0].
  - rewrite Nat2Z.id.
    destruct (slide_stop_spec ins_c del_c max_d curr1 (j - (n - m)) b b
                (le_n _)) as (b2 & -> & Hb2 & _).
    set (a := Z.to_nat sc).
    replace sc with (Z.of_nat a) by lia.
    replace (Z.to_nat (Z.of_nat b2 - Z.of_nat a)) with (b2 - a)%nat by lia.
    destruct (slide_start_spec ins_c del_c max_d s_char_len sd
                (j - (n - m)) b2 (b2 - a) a curr1 prev1
                sd)
      as (a2 & prev2 & curr2 & sd2 & E & Ha2 & Hab2 & _ & Lp2 & Lc2 & _);
      [lia | lia | lia |].
    rewrite E. clear E.
    cbn [v_prev v_curr v_start_column v_stop_column].
    split; [lia|]. split; [lia|]. split; [congruence|]. split; [congruence|].
    destruct (le_lt_dec b2 a2); [left; lia|right].
    unfold window_shape, window_ordered, next_row.
    cbn [v_prev v_curr v_start_column v_stop_column].
    split; [lia|]. split; congruence.
  - cbn [v_prev v_curr v_start_column v_stop_column].
    split; [lia|]. split; [lia|]. split; [congruence|]. split; [congruence|].
    right. unfold window_shape, window_ordered, next_row.
    cbn [v_prev v_curr v_start_column v_stop_column].
    split; [lia|]. split; congruence.
Qed.

(** Every head of the row loop has an ordered window. *)
Lemma loop_head_shape (e : loop_entry) :
  e_sub_c e = sub_c -> e_max_d e = max_d -> e_s_char_len e = s_char_len ->
  e_m e = m -> e_n e = n -> e_t_bytes e = t_bytes ->
  window_shape m cols (e_vars e) ->
  forall (k : nat) (v : loop_vars),
    loop_head pg_mblen ins_c del_c e k = Some v -> window_shape m cols v.
Proof.
  intros E1 E2 E3 E4 E5 E6 H0 k. induction k as [|k IH]; intros v Hv.
  - cbn in Hv. now injection Hv as <-.
  - cbn [loop_head] in Hv.
    destruct (loop_head pg_mblen ins_c del_c e k) as [v1|]; [|discriminate].
    specialize (IH v1 eq_refl).
    rewrite E1, E2, E3, E4, E5, E6 in Hv. unfold row_le in Hv.
    pose proof (row_body_shape v1 IH) as S. cbn zeta in S.
    set (v' := row_body _ _ _ _ _ _ _ _ _ _) in *.
    destruct S as (_ & _ & _ & _ & [[Hb Hx]|Hs]).
    + destruct (Z.leb_spec 0 max_d); [|lia]. cbn [andb] in Hv.
      destruct (Z.leb_spec (v_stop_column v') (v_start_column v'));
        [discriminate|lia].
    + destruct (_ && _); [discriminate|]. now injection Hv as <-.
Qed.

End WindowOrder.

(** ** Empty inputs, the length limit and the division *)

Lemma char_count_nil pg_mblen : char_count pg_mblen [] = 0.
Proof. reflexivity. Qed.

Lemma char_count_cons pg_mblen (b : byte) (s : text) :
  1 <= char_count pg_mblen (b :: s).
Proof.
  unfold char_count, pg_mbstrlen_with_len, VARSIZE_ANY_EXHDR.
  cbn [List.length]. rewrite Nat2Z.id. cbn [mbstrlen_loop].
  destruct (Z.ltb_spec 0 (Z.of_nat (S (List.length s)))); [|lia].
  apply mbstrlen_loop_ge.
Qed.

Lemma char_count_zero_iff pg_mblen (s : text) :
  char_count pg_mblen s = 0 <-> s = [].
Proof.
  split.
  - destruct s as [|b s]; auto. pose proof (char_count_cons pg_mblen b s). lia.
  - intros ->. reflexivity.
Qed.

(** The division of the set-up block is never a division by zero. *)
Lemma bound_setup_no_trap (m n ins_c del_c sub_c max_d stop_column : Z) :
  bound_setup m n ins_c del_c sub_c max_d stop_column <> SetupDivByZero.
Proof.
  unfold bound_setup.
  destruct (0 <=? max_d); [|discriminate].
  destruct (max_d <? _); [discriminate|].
  destruct (_ <=? max_d); [discriminate|].
  destruct (Z.ltb_spec 0 (ins_c + del_c)); [|discriminate].
  unfold int_div. destruct (Z.eqb_spec (ins_c + del_c) 0); [lia|discriminate].
Qed.

(** How the prologue of the bounded engine ends. *)
Lemma less_equal_prologue_cases pg_mblen uninit (s t : text)
    (ins_c del_c sub_c trans_c max_d : Z) :
  let m := char_count pg_mblen s in
  let n := char_count pg_mblen t in
  let p := less_equal_prologue pg_mblen uninit s t
             ins_c del_c sub_c trans_c max_d in
  (m = 0 /\ p = inl (Ret (n * ins_c)))
  \/ (m <> 0 /\ n = 0 /\ p = inl (Ret (m * del_c)))
  \/ (m <> 0 /\ n <> 0 /\ (255 < m \/ 255 < n) /\ p = inl (InputTooLong 255))
  \/ (1 <= m <= 255 /\ 1 <= n <= 255
      /\ ((exists d, p = inl (Ret d)
                     /\ bound_setup m n ins_c del_c sub_c max_d (m + 1)
                        = SetupReturn d)
          \/ (exists e, p = inr e /\ e_m e = m + 1 /\ e_n e = n + 1
                        /\ v_start_column (e_vars e) = 0
                        /\ bound_setup m n ins_c del_c sub_c max_d (m + 1)
                           = SetupGo (e_sub_c e) (e_max_d e)
                                     (v_stop_column (e_vars e))))).
Proof.
  cbn zeta. unfold less_equal_prologue.
  fold (char_count pg_mblen s) (char_count pg_mblen t).
  pose proof (char_count_nonneg pg_mblen s) as Hm.
  pose proof (char_count_nonneg pg_mblen t) as Hn.
  set (m := char_count pg_mblen s) in *.
  set (n := char_count pg_mblen t) in *.
  destruct (Z.eqb_spec m 0) as [E|Em]; [now left|right].
  destruct (Z.eqb_spec n 0) as [E|En]; [now left|right].
  unfold MAX_DAMERAU_LEVENSHTEIN_STRLEN.
  destruct (Z.ltb_spec 255 m); cbn [orb]; [left; finish|].
  destruct (Z.ltb_spec 255 n); cbn [orb]; [left; finish|].
  right. split; [lia|]. split; [lia|].
  pose proof (bound_setup_no_trap m n ins_c del_c sub_c max_d (m + 1)) as T.
  destruct (bound_setup m n ins_c del_c sub_c max_d (m + 1))
    as [d|sub' max_d' stop|]; [left|right|congruence].
  - exists d. auto.
  - eexists. split; [reflexivity|]. cbn. auto.
Qed.

(** The bounded engine never ends in the trap. *)
Lemma less_equal_no_trap pg_mblen uninit (s t : text)
    (ins_c del_c sub_c trans_c max_d : Z) :
  dameraulevenshtein_less_equal_internal pg_mblen uninit s t
    ins_c del_c sub_c trans_c max_d <> DivisionByZero.
Proof.
  pose proof (less_equal_prologue_cases pg_mblen uninit s t
                ins_c del_c sub_c trans_c max_d) as P. cbn zeta in P.
  unfold dameraulevenshtein_less_equal_internal.
  destruct P as [(_ & ->)|[(_ & _ & ->)|[(_ & _ & _ & ->)
                |(_ & _ & [(d & -> & _)|(e & -> & _)])]]]; discriminate.
Qed.

(** ** The notional matrix is the least penalty of an edit script *)

Lemma skipn_cons_inv {A : Type} (l : list A) (i : nat) (a d : A) (r : list A) :
  skipn i l = a :: r ->
  (i < List.length l)%nat /\ a = nth i l d /\ r = skipn (S i) l.
Proof.
  revert i. induction l as [|x l IH]; intros i H.
  - rewrite skipn_nil in H. discriminate.
  - destruct i as [|i].
    + cbn in H. injection H as -> ->. cbn. auto with arith.
    + cbn [skipn] in H. destruct (IH i H) as (H1 & H2 & H3).
      cbn [List.length nth]. split; [lia|]. split; auto.
Qed.

Lemma firstn_snoc {A : Type} (l : list A) (i : nat) (d : A) :
  (i < List.length l)%nat -> firstn (S i) l = firstn i l ++ [nth i l d].
Proof.
  revert i. induction l as [|x l IH]; intros i H; cbn [List.length] in H.
  - lia.
  - destruct i as [|i]; [reflexivity|].
    cbn [firstn nth app]. change (x :: firstn i l ++ [nth i l d])
      with (x :: (firstn i l ++ [nth i l d])).
    f_equal. apply IH. lia.
Qed.

Lemma char_eqb_refl (a : char) : char_eqb a a = true.
Proof. unfold char_eqb. destruct (list_eq_dec _ a a); congruence. Qed.

Lemma char_eqb_eq (a b : char) : char_eqb a b = true <-> a = b.
Proof.
  unfold char_eqb. destruct (list_eq_dec _ a b); split; congruence.
Qed.

Lemma char_eqb_sym (a b : char) : char_eqb a b = char_eqb b a.
Proof.
  unfold char_eqb.
  destruct (list_eq_dec _ a b), (list_eq_dec _ b a); congruence.
Qed.

Section ScriptFacts.

Variables ins_c del_c sub_c : Z.
Variables cs ct : list char.

Let N := notional ins_c del_c sub_c (same_chars cs ct).
Local Abbreviation run := (run_script ins_c del_c sub_c).

Lemma run_script_app (es1 es2 : list edit) :
  forall (s1 s2 o1 o2 : list char) (p1 p2 : Z),
    run es1 s1 = Some (o1, p1) -> run es2 s2 = Some (o2, p2) ->
    run (es1 ++ es2) (s1 ++ s2) = Some (o1 ++ o2, p1 + p2).
Proof.
  induction es1 as [|e es1 IH]; intros s1 s2 o1 o2 p1 p2 H1 H2.
  - destruct s1; cbn in H1; [|discriminate]. injection H1 as <- <-.
    cbn [app]. rewrite H2. f_equal.
  - destruct e as [|c| |c]; cbn [app run_script] in H1 |- *.
    + destruct s1 as [|a s1]; [discriminate|]. cbn [app].
      destruct (run_script ins_c del_c sub_c es1 s1) as [[o p]|] eqn:E;
        [|discriminate]. injection H1 as <- <-.
      now rewrite (IH _ _ _ _ _ _ E H2).
    + destruct s1 as [|a s1]; [discriminate|]. cbn [app].
      destruct (run_script ins_c del_c sub_c es1 s1) as [[o p]|] eqn:E;
        [|discriminate]. injection H1 as <- <-.
      rewrite (IH _ _ _ _ _ _ E H2). cbn [app]. do 2 f_equal. lia.
    + destruct s1 as [|a s1]; [discriminate|]. cbn [app].
      destruct (run_script ins_c del_c sub_c es1 s1) as [[o p]|] eqn:E;
        [|discriminate]. injection H1 as <- <-.
      rewrite (IH _ _ _ _ _ _ E H2). do 2 f_equal. lia.
    + destruct (run_script ins_c del_c sub_c es1 s1) as [[o p]|] eqn:E;
        [|discriminate]. injection H1 as <- <-.
      rewrite (IH _ _ _ _ _ _ E H2). cbn [app]. do 2 f_equal. lia.
Qed.

(** No script is cheaper than the corner of the matrix. *)
Lemma script_lower_bound (es : list edit) :
  0 <= sub_c ->
  forall (i j : nat) (p : Z),
    (i <= List.length cs)%nat -> (j <= List.length ct)%nat ->
    run es (skipn i cs) = Some (skipn j ct, p) ->
    N (List.length ct) (List.length cs) <= N j i + p.
Proof.
  intros Hs.
  induction es as [|e es IH]; intros i j p Hi Hj H.
  - cbn in H. destruct (skipn i cs) eqn:E1; [|discriminate].
    injection H as E2 <-.
    assert (i = List.length cs).
    { apply (f_equal (@List.length _)) in E1. rewrite length_skipn in E1.
      cbn in E1. lia. }
    assert (j = List.length ct).
    { apply (f_equal (@List.length _)) in E2. rewrite length_skipn in E2.
      cbn in E2. lia. }
    subst. lia.
  - destruct e as [|c| |c]; cbn [run_script] in H.
    + destruct (skipn i cs) as [|a src'] eqn:E1; [discriminate|].
      destruct (run_script ins_c del_c sub_c es src') as [[o q]|] eqn:E;
        [|discriminate]. injection H as E2 <-.
      destruct (skipn_cons_inv cs i a [] src' E1) as (Li & Ea & Es).
      destruct (skipn_cons_inv ct j a [] o (eq_sym E2)) as (Lj & Eb & Eo).
      subst src' o. specialize (IH (S i) (S j) q Li Lj E).
      pose proof (notional_sub_step ins_c del_c sub_c (same_chars cs ct) j i)
        as S. fold N in S. unfold same_chars in S.
      rewrite <- Ea, <- Eb, char_eqb_refl in S. lia.
    + destruct (skipn i cs) as [|a src'] eqn:E1; [discriminate|].
      destruct (run_script ins_c del_c sub_c es src') as [[o q]|] eqn:E;
        [|discriminate]. injection H as E2 <-.
      destruct (skipn_cons_inv cs i a [] src' E1) as (Li & Ea & Es).
      destruct (skipn_cons_inv ct j c [] o (eq_sym E2)) as (Lj & Eb & Eo).
      subst src' o. specialize (IH (S i) (S j) q Li Lj E).
      pose proof (notional_sub_step ins_c del_c sub_c (same_chars cs ct) j i)
        as S. fold N in S. destruct (same_chars cs ct i j); lia.
    + destruct (skipn i cs) as [|a src'] eqn:E1; [discriminate|].
      destruct (run_script ins_c del_c sub_c es src') as [[o q]|] eqn:E;
        [|discriminate]. injection H as E2 <-.
      destruct (skipn_cons_inv cs i a [] src' E1) as (Li & Ea & Es).
      subst src' o. specialize (IH (S i) j q Li Hj E).
      pose proof (notional_del_step ins_c del_c sub_c (same_chars cs ct) j i)
        as S. fold N in S. lia.
    + destruct (run_script ins_c del_c sub_c es (skipn i cs)) as [[o q]|] eqn:E;
        [|destruct (skipn i cs); discriminate].
      assert (E2 : c :: o = skipn j ct /\ ins_c + q = p)
        by (destruct (skipn i cs); injection H as <- <-; auto).
      destruct E2 as [E2 <-].
      destruct (skipn_cons_inv ct j c [] o (eq_sym E2)) as (Lj & Eb & Eo).
      subst o. specialize (IH i (S j) q Hi Lj E).
      pose proof (notional_ins_step ins_c del_c sub_c (same_chars cs ct) j i)
        as S. fold N in S. lia.
Qed.

(** Every cell of the matrix is the penalty of some script. *)
Lemma script_exists (j : nat) :
  forall i : nat,
    (j <= List.length ct)%nat -> (i <= List.length cs)%nat ->
    exists es, run es (firstn i cs) = Some (firstn j ct, N j i).
Proof.
  induction j as [|j IHj].
  - induction i as [|i IHi]; intros Hj Hi.
    + exists []. reflexivity.
    + destruct IHi as (es & E); auto; [lia|].
      exists (es ++ [Delete]). rewrite (firstn_snoc cs i []) by lia.
      change (firstn 0 ct) with (firstn 0 ct ++ []) .
      rewrite (run_script_app es [Delete] _ [nth i cs []] _ [] _ (del_c + 0) E)
        by reflexivity.
      unfold N. rewrite !notional_row0. do 2 f_equal. lia.
  - induction i as [|i IHi]; intros Hj Hi.
    + destruct (IHj 0%nat) as (es & E); [lia|lia|].
      exists (es ++ [Insert (nth j ct [])]).
      rewrite (firstn_snoc ct j []) by lia.
      change (firstn 0 cs) with (firstn 0 cs ++ []) at 1.
      rewrite (run_script_app es [Insert (nth j ct [])] _ [] _
                 [nth j ct []] _ (ins_c + 0) E) by reflexivity.
      unfold N. rewrite !notional_col0. do 2 f_equal. lia.
    + unfold N. rewrite notional_step. fold N. unfold cell.
      destruct (Z.min_spec (N j (S i) + ins_c) (N (S j) i + del_c))
        as [[_ E1]|[_ E1]]; rewrite E1; clear E1;
      match goal with
      | |- context [Z.min ?a ?b] =>
          destruct (Z.min_spec a b) as [[_ E2]|[_ E2]]; rewrite E2; clear E2
      end.
      * destruct (IHj (S i)) as (es & E); [lia|lia|].
        exists (es ++ [Insert (nth j ct [])]).
        rewrite (firstn_snoc ct j []) by lia.
        rewrite <- (app_nil_r (firstn (S i) cs)).
        now rewrite (run_script_app es [Insert (nth j ct [])] _ [] _
                       [nth j ct []] _ (ins_c + 0) E), Z.add_0_r, Z.add_comm
          by reflexivity.
      * destruct (IHj i) as (es & E); [lia|lia|].
        rewrite (firstn_snoc ct j []), (firstn_snoc cs i []) by lia.
        unfold same_chars, char_eqb.
        destruct (list_eq_dec _ (nth i cs []) (nth j ct [])) as [Eq|Ne].
        -- exists (es ++ [Keep]). rewrite <- Eq.
           now rewrite (run_script_app es [Keep] _ [nth i cs []] _
                          [nth i cs []] _ 0 E) by reflexivity.
        -- exists (es ++ [Substitute (nth j ct [])]).
           now rewrite (run_script_app es [Substitute (nth j ct [])] _
                          [nth i cs []] _ [nth j ct []] _ (sub_c + 0) E),
             Z.add_0_r by reflexivity.
      * destruct IHi as (es & E); [lia|lia|].
        exists (es ++ [Delete]). rewrite (firstn_snoc cs i []) by lia.
        rewrite <- (app_nil_r (firstn (S j) ct)).
        now rewrite (run_script_app es [Delete] _ [nth i cs []] _ [] _
                       (del_c + 0) E), Z.add_0_r, Z.add_comm by reflexivity.
      * destruct (IHj i) as (es & E); [lia|lia|].
        rewrite (firstn_snoc ct j []), (firstn_snoc cs i []) by lia.
        unfold same_chars, char_eqb.
        destruct (list_eq_dec _ (nth i cs []) (nth j ct [])) as [Eq|Ne].
        -- exists (es ++ [Keep]). rewrite <- Eq.
           now rewrite (run_script_app es [Keep] _ [nth i cs []] _
                          [nth i cs []] _ 0 E) by reflexivity.
        -- exists (es ++ [Substitute (nth j ct [])]).
           now rewrite (run_script_app es [Substitute (nth j ct [])] _
                          [nth i cs []] _ [nth j ct []] _ (sub_c + 0) E),
             Z.add_0_r by reflexivity.
Qed.

End ScriptFacts.

(** ** Well-encoded texts and their characters *)

Section CharFacts.

Variable pg_mblen : list byte -> Z.

Local Abbreviation wel := (well_encoded_loop pg_mblen).
Local Abbreviation count := (char_count pg_mblen).
Local Abbreviation cptr := (char_ptr pg_mblen).

Lemma ptr_add_length (p : list byte) (k : Z) :
  0 <= k <= Z.of_nat (List.length p) ->
  Z.of_nat (List.length (ptr_add p k)) = Z.of_nat (List.length p) - k.
Proof. intros H. unfold ptr_add. rewrite length_skipn. lia. Qed.

Lemma well_encoded_loop_fuel (f : nat) :
  forall (p : list byte) (f2 : nat),
    (List.length p <= f)%nat -> (List.length p <= f2)%nat ->
    wel f p = wel f2 p.
Proof.
  induction f as [|f IH]; intros p f2 H1 H2.
  - destruct p; [|cbn in H1; lia]. destruct f2; reflexivity.
  - destruct p as [|b r]; [destruct f2; reflexivity|].
    destruct f2 as [|f2]; [cbn in H2; lia|].
    cbn [well_encoded_loop].
    destruct (Z.leb_spec 1 (pg_mblen (b :: r))) as [Hl|]; [|reflexivity].
    destruct (Z.leb_spec (pg_mblen (b :: r)) (Z.of_nat (List.length (b :: r))))
      as [Hu|]; [|reflexivity].
    cbn [andb]. pose proof (ptr_add_length (b :: r) (pg_mblen (b :: r))).
    apply IH; lia.
Qed.

Lemma mbstrlen_loop_fuel (f : nat) :
  forall (p : list byte) (f2 : nat) (len : Z),
    (List.length p <= f)%nat -> (List.length p <= f2)%nat ->
    wel f p = true ->
    mbstrlen_loop pg_mblen f p (Z.of_nat (List.length p)) len
    = mbstrlen_loop pg_mblen f2 p (Z.of_nat (List.length p)) len.
Proof.
  induction f as [|f IH]; intros p f2 len H1 H2 W.
  - destruct p; [|cbn in H1; lia]. destruct f2; reflexivity.
  - destruct p as [|b r]; [destruct f2; reflexivity|].
    destruct f2 as [|f2]; [cbn in H2; lia|].
    cbn [well_encoded_loop] in W. cbn [mbstrlen_loop].
    destruct (Z.leb_spec 1 (pg_mblen (b :: r))) as [Hl|]; [|discriminate].
    destruct (Z.leb_spec (pg_mblen (b :: r)) (Z.of_nat (List.length (b :: r))))
      as [Hu|]; [|discriminate].
    cbn [andb] in W.
    destruct (Z.ltb_spec 0 (Z.of_nat (List.length (b :: r))));
      [|reflexivity].
    pose proof (ptr_add_length (b :: r) (pg_mblen (b :: r))) as L.
    rewrite <- L by lia. apply IH; auto; lia.
Qed.

Lemma mbstrlen_loop_len (f : nat) :
  forall (p : list byte) (limit len : Z),
    mbstrlen_loop pg_mblen f p limit len
    = len + mbstrlen_loop pg_mblen f p limit 0.
Proof.
  induction f as [|f IH]; intros p limit len; cbn [mbstrlen_loop]; [lia|].
  destruct (0 <? limit); [|lia].
  rewrite IH, (IH _ _ (0 + 1)). lia.
Qed.

(** The first character of a well-encoded text, and the rest of it. *)
Lemma well_encoded_step (p : list byte) :
  p <> [] -> well_encoded pg_mblen p = true ->
  1 <= pg_mblen p <= Z.of_nat (List.length p)
  /\ well_encoded pg_mblen (ptr_add p (pg_mblen p)) = true
  /\ count p = 1 + count (ptr_add p (pg_mblen p)).
Proof.
  intros Hne W. destruct p as [|b r]; [congruence|].
  unfold well_encoded in W. cbn [List.length well_encoded_loop] in W.
  destruct (Z.leb_spec 1 (pg_mblen (b :: r))) as [Hl|]; [|discriminate].
  destruct (Z.leb_spec (pg_mblen (b :: r))
                       (Z.of_nat (S (List.length r)))) as [Hu|];
    [|discriminate].
  cbn [andb] in W.
  pose proof (ptr_add_length (b :: r) (pg_mblen (b :: r))) as L.
  cbn [List.length] in L.
  split; [cbn [List.length]; lia|]. split.
  - unfold well_encoded. rewrite <- W. apply well_encoded_loop_fuel; lia.
  - unfold char_count, pg_mbstrlen_with_len, VARSIZE_ANY_EXHDR.
    rewrite !Nat2Z.id. cbn [List.length mbstrlen_loop].
    destruct (Z.ltb_spec 0 (Z.of_nat (S (List.length r)))); [|lia].
    rewrite mbstrlen_loop_len. rewrite <- L by lia. f_equal.
    apply mbstrlen_loop_fuel; auto; lia.
Qed.

Lemma count_le_bytes (k : nat) :
  forall p : list byte,
    (List.length p <= k)%nat -> well_encoded pg_mblen p = true ->
    count p <= Z.of_nat (List.length p).
Proof.
  induction k as [|k IH]; intros p Hk W.
  - destruct p; [cbn; lia|cbn in Hk; lia].
  - destruct p as [|b r]; [cbn; lia|].
    destruct (well_encoded_step (b :: r)) as (Hl & W' & E);
      [discriminate|assumption|].
    pose proof (ptr_add_length (b :: r) (pg_mblen (b :: r)) ltac:(lia)) as L.
    assert (C : count (ptr_add (b :: r) (pg_mblen (b :: r)))
                <= Z.of_nat (List.length
                               (ptr_add (b :: r) (pg_mblen (b :: r)))))
      by (apply IH; [cbn [List.length] in *; lia|assumption]).
    cbn [List.length] in *. lia.
Qed.

Section OneText.

Variable s : text.
Hypothesis s_well_encoded : well_encoded pg_mblen s = true.

(** What is left of the text at each character. *)
Lemma char_ptr_rest (i : nat) :
  Z.of_nat i <= count s ->
  well_encoded pg_mblen (cptr s i) = true
  /\ count (cptr s i) = count s - Z.of_nat i.
Proof.
  induction i as [|i IH]; intros Hi.
  - cbn [char_ptr]. split; [assumption|lia].
  - destruct IH as [W E]; [lia|]. cbn [char_ptr].
    assert (Hne : cptr s i <> []).
    { intros H0. rewrite H0, char_count_nil in E. lia. }
    destruct (well_encoded_step (cptr s i) Hne W) as (_ & W' & E').
    split; [assumption|lia].
Qed.

Lemma char_len_bounds (i : nat) :
  Z.of_nat i < count s ->
  1 <= pg_mblen (cptr s i) <= Z.of_nat (List.length (cptr s i)).
Proof.
  intros Hi. destruct (char_ptr_rest i) as [W E]; [lia|].
  assert (Hne : cptr s i <> []).
  { intros H0. rewrite H0, char_count_nil in E. lia. }
  apply (well_encoded_step (cptr s i) Hne W).
Qed.

Lemma char_ptr_end : cptr s (Z.to_nat (count s)) = [].
Proof.
  pose proof (char_count_nonneg pg_mblen s).
  destruct (char_ptr_rest (Z.to_nat (count s))) as [_ E]; [lia|].
  apply (char_count_zero_iff pg_mblen). lia.
Qed.

(** When the text has as many bytes as characters, every character has one
    byte. *)
Lemma single_byte_chars (i : nat) :
  count s = Z.of_nat (List.length s) ->
  Z.of_nat i <= count s ->
  count (cptr s i) = Z.of_nat (List.length (cptr s i))
  /\ (Z.of_nat i < count s -> pg_mblen (cptr s i) = 1).
Proof.
  intros Hs. induction i as [|i IH]; intros Hi.
  - cbn [char_ptr]. split; [assumption|]. intros H0.
    pose proof (char_len_bounds 0 H0) as B. cbn [char_ptr] in B.
    destruct (char_ptr_rest 1) as [W E]; [lia|]. cbn [char_ptr] in W, E.
    pose proof (count_le_bytes _ _ (le_n _) W) as C.
    rewrite ptr_add_length in C by lia. lia.
  - destruct IH as [E1 _]; [lia|].
    pose proof (char_len_bounds i ltac:(lia)) as B.
    destruct (char_ptr_rest i) as [_ Ei]; [lia|].
    destruct (char_ptr_rest (S i)) as [W E]; [lia|].
    pose proof (count_le_bytes _ _ (le_n _) W) as C.
    cbn [char_ptr] in W, E, C |- *.
    rewrite ptr_add_length in C |- * by lia.
    assert (L1 : pg_mblen (cptr s i) = 1) by lia.
    split; [lia|]. intros H1.
    pose proof (char_len_bounds (S i) H1) as B'.
    destruct (char_ptr_rest (S (S i))) as [W2 E2]; [lia|].
    pose proof (count_le_bytes _ _ (le_n _) W2) as C2.
    cbn [char_ptr] in B', W2, E2, C2.
    rewrite (ptr_add_length (ptr_add _ _)) in C2 by lia.
    rewrite ptr_add_length in C2 by lia. lia.
Qed.

End OneText.

End CharFacts.

(** ** The engines compare characters *)

Lemma byte_eqb_refl (b : byte) : Byte.eqb b b = true.
Proof. now apply Byte.byte_dec_lb. Qed.

Lemma rest_of_char_same_loop_spec (k : nat) (x y : list byte) :
  (k <= List.length x)%nat -> (k <= List.length y)%nat ->
  (rest_of_char_same_loop k x y = true <-> firstn k x = firstn k y).
Proof.
  induction k as [|k IH]; intros Hx Hy.
  - cbn. tauto.
  - cbn [rest_of_char_same_loop].
    rewrite (firstn_snoc x k x00), (firstn_snoc y k x00) by lia.
    destruct (Byte.eqb (nth k x x00) (nth k y x00)) eqn:E.
    + apply Byte.byte_dec_bl in E. rewrite E, IH by lia. split.
      * intros ->. reflexivity.
      * intros H. now apply app_inj_tail in H.
    + split; [discriminate|]. intros H. apply app_inj_tail in H.
      destruct H as [_ H]. rewrite H in E.
      rewrite byte_eqb_refl in E. discriminate.
Qed.

(** The test of the multi-byte loop is the equality of the two
    characters. *)
Lemma mb_char_same_spec (x y : list byte) (xl yl : Z) :
  1 <= xl <= Z.of_nat (List.length x) ->
  1 <= yl <= Z.of_nat (List.length y) ->
  mb_char_same x xl y yl
  = char_eqb (firstn (Z.to_nat xl) x) (firstn (Z.to_nat yl) y).
Proof.
  intros Hx Hy. unfold mb_char_same.
  destruct (Z.eqb_spec xl yl) as [<-|Hne].
  - rewrite andb_true_r. unfold rest_of_char_same, ptr_at.
    pose proof (rest_of_char_same_loop_spec (Z.to_nat xl) x y
                  ltac:(lia) ltac:(lia)) as R.
    replace (Z.to_nat xl) with (S (Z.to_nat (xl - 1))) in * by lia.
    cbn [rest_of_char_same_loop] in R |- *.
    destruct (Byte.eqb (nth (Z.to_nat (xl - 1)) x x00)
                       (nth (Z.to_nat (xl - 1)) y x00)) eqn:E.
    + cbn [andb]. destruct (Z.eqb_spec xl 1) as [E1|E1]; cbn [orb].
      * replace (Z.to_nat (xl - 1)) with 0%nat in * by lia.
        cbn [rest_of_char_same_loop] in R. symmetry.
        apply char_eqb_eq. now apply R.
      * destruct (rest_of_char_same_loop _ x y) eqn:E2.
        -- symmetry. apply char_eqb_eq. now apply R.
        -- destruct (char_eqb _ _) eqn:E3; auto.
           apply char_eqb_eq in E3. apply R in E3. discriminate.
    + cbn [andb]. destruct (char_eqb _ _) eqn:E3; auto.
      apply char_eqb_eq in E3. apply R in E3. discriminate.
  - rewrite andb_false_r. cbn [andb].
    destruct (char_eqb _ _) eqn:E3; auto. apply char_eqb_eq in E3.
    apply (f_equal (@List.length _)) in E3. rewrite !length_firstn in E3. lia.
Qed.

Lemma sb_char_same_spec (x y : list byte) :
  x <> [] -> y <> [] ->
  Byte.eqb (ptr_at x 0) (ptr_at y 0) = char_eqb (firstn 1 x) (firstn 1 y).
Proof.
  destruct x as [|a x], y as [|b y]; try congruence. intros _ _.
  unfold ptr_at. cbn. destruct (Byte.eqb a b) eqn:E.
  - apply Byte.byte_dec_bl in E. subst. symmetry. now apply char_eqb_eq.
  - destruct (char_eqb [a] [b]) eqn:E3; auto. apply char_eqb_eq in E3.
    injection E3 as ->. rewrite byte_eqb_refl in E.
    discriminate.
Qed.

Lemma rd_cons_succ (a : Z) (l : list Z) (i : nat) :
  rd (a :: l) (Z.of_nat (S i)) = rd l (Z.of_nat i).
Proof. unfold rd. now rewrite !Nat2Z.id. Qed.

Section EnginePointers.

Variable pg_mblen : list byte -> Z.

Local Abbreviation count := (char_count pg_mblen).
Local Abbreviation cptr := (char_ptr pg_mblen).

Lemma char_ptr_shift (s : text) (i : nat) :
  cptr s (S i) = cptr (ptr_add s (pg_mblen s)) i.
Proof.
  induction i as [|i IH]; [reflexivity|].
  cbn [char_ptr] in IH |- *. now rewrite IH.
Qed.

Lemma fill_char_len_rd (cnt : nat) :
  forall (cp : list byte) (i : nat),
    (i < cnt)%nat ->
    rd (fill_char_len pg_mblen cnt cp) (Z.of_nat i) = pg_mblen (cptr cp i).
Proof.
  induction cnt as [|c IH]; intros cp i Hi; [lia|].
  cbn [fill_char_len]. destruct i as [|i]; [reflexivity|].
  rewrite rd_cons_succ, IH by lia. now rewrite char_ptr_shift.
Qed.

Section TwoTexts.

Variables s t : text.
Hypothesis s_well_encoded : well_encoded pg_mblen s = true.
Hypothesis t_well_encoded : well_encoded pg_mblen t = true.

Let scl := make_s_char_len pg_mblen s (count s) (VARSIZE_ANY_EXHDR s)
                           (count t) (VARSIZE_ANY_EXHDR t).

Lemma x_len_char (i : nat) :
  Z.of_nat i < count s -> x_len scl i = pg_mblen (cptr s i).
Proof.
  intros Hi. unfold x_len, scl, make_s_char_len, VARSIZE_ANY_EXHDR.
  destruct (Z.eqb_spec (count s) (Z.of_nat (List.length s))) as [E|E];
    cbn [negb orb].
  - destruct (negb _).
    + apply fill_char_len_rd. lia.
    + symmetry. apply (single_byte_chars pg_mblen s s_well_encoded i E); lia.
  - apply fill_char_len_rd. lia.
Qed.

Lemma x_ptr_char (i : nat) :
  Z.of_nat i <= count s -> x_ptr scl s i = cptr s i.
Proof.
  induction i as [|i IH]; intros Hi; [reflexivity|].
  cbn [x_ptr char_ptr]. rewrite IH, x_len_char by lia. reflexivity.
Qed.

Lemma y_len_char (j : nat) :
  Z.of_nat j < count t ->
  y_len pg_mblen (count t + 1) (VARSIZE_ANY_EXHDR t) (cptr t j)
  = pg_mblen (cptr t j).
Proof.
  intros Hj. unfold y_len, VARSIZE_ANY_EXHDR.
  destruct (Z.eqb_spec (count t + 1) (Z.of_nat (List.length t) + 1)) as [E|E];
    cbn [negb]; [|reflexivity].
  symmetry. apply (single_byte_chars pg_mblen t t_well_encoded j); lia.
Qed.

Lemma y_ptr_char (j : nat) :
  Z.of_nat j <= count t ->
  y_ptr pg_mblen t (count t + 1) (VARSIZE_ANY_EXHDR t) j = cptr t j.
Proof.
  induction j as [|j IH]; intros Hj; [reflexivity|].
  cbn [y_ptr char_ptr]. rewrite IH, y_len_char by lia. reflexivity.
Qed.

Lemma chars_nth (u : text) (i : nat) :
  Z.of_nat i < count u ->
  nth i (chars pg_mblen u) [] = char_at pg_mblen u i.
Proof.
  intros Hi. unfold chars.
  rewrite (nth_indep _ [] (char_at pg_mblen u 0))
    by (rewrite length_map, length_seq; lia).
  rewrite (map_nth (char_at pg_mblen u)), seq_nth by lia. reflexivity.
Qed.

(** On well-encoded texts the test of the engines is the equality of the
    characters. *)
Lemma engine_same_chars (i j : nat) :
  Z.of_nat i < count s -> Z.of_nat j < count t ->
  engine_same pg_mblen s t i j
  = same_chars (chars pg_mblen s) (chars pg_mblen t) i j.
Proof.
  intros Hi Hj. unfold engine_same, same_chars, same_at. fold scl.
  rewrite !chars_nth by assumption. unfold char_at.
  rewrite x_ptr_char, y_ptr_char, y_len_char by lia.
  pose proof (char_len_bounds pg_mblen s s_well_encoded i Hi) as Bx.
  pose proof (char_len_bounds pg_mblen t t_well_encoded j Hj) as By.
  pose proof (x_len_char i Hi) as Lx. rewrite Lx. unfold x_len in Lx.
  destruct scl as [l|] eqn:E.
  - now apply mb_char_same_spec.
  - rewrite <- Lx. rewrite sb_char_same_spec.
    + f_equal. f_equal.
      assert (Ht : count t = Z.of_nat (List.length t)).
      { unfold scl, make_s_char_len, VARSIZE_ANY_EXHDR in E.
        destruct (Z.eqb_spec (count t) (Z.of_nat (List.length t))); auto.
        rewrite orb_true_r in E. discriminate. }
      destruct (single_byte_chars pg_mblen t t_well_encoded j Ht) as [_ ->];
        auto; lia.
    + intros H0. rewrite H0 in Bx. cbn in Bx. lia.
    + intros H0. rewrite H0 in By. cbn in By. lia.
Qed.

End TwoTexts.

End EnginePointers.

(** The matrix depends on the comparisons of the characters it covers
    only. *)
Lemma notional_ext ins_c del_c sub_c (same same' : nat -> nat -> bool)
    (m0 n0 : nat) :
  (forall i j, (i < m0)%nat -> (j < n0)%nat -> same i j = same' i j) ->
  forall j i, (j <= n0)%nat -> (i <= m0)%nat ->
    notional ins_c del_c sub_c same j i = notional ins_c del_c sub_c same' j i.
Proof.
  intros H. induction j as [|j IHj]; intros i Hj Hi.
  - reflexivity.
  - induction i as [|i IHi].
    + now rewrite !notional_col0.
    + rewrite !notional_step, IHi, !IHj, H by lia. reflexivity.
Qed.

(** ** The corner of the matrix in terms of characters *)

Section CornerChars.

Variable pg_mblen : list byte -> Z.
Variables s t : text.
Hypothesis s_well_encoded : well_encoded pg_mblen s = true.
Hypothesis t_well_encoded : well_encoded pg_mblen t = true.

Lemma chars_length (u : text) :
  List.length (chars pg_mblen u) = Z.to_nat (char_count pg_mblen u).
Proof. unfold chars. now rewrite length_map, length_seq. Qed.

(** The characters of a well-encoded text are the text cut in pieces. *)
Lemma chars_concat : List.concat (chars pg_mblen s) = s.
Proof.
  pose proof (char_count_nonneg pg_mblen s) as Hm.
  unfold chars. set (m0 := Z.to_nat (char_count pg_mblen s)).
  assert (G : forall k i, (i + k = m0)%nat ->
            List.concat (map (char_at pg_mblen s) (seq i k))
            = char_ptr pg_mblen s i).
  { induction k as [|k IH]; intros i Hik.
    - replace i with m0 by lia. cbn. symmetry.
      now apply char_ptr_end.
    - cbn [seq map List.concat]. rewrite IH by lia. cbn [char_ptr].
      unfold char_at, ptr_add. apply firstn_skipn. }
  apply (G m0 0%nat). lia.
Qed.

Lemma matrix_corner_chars (ins_c del_c sub_c : Z) :
  matrix_corner pg_mblen s t ins_c del_c sub_c
  = notional ins_c del_c sub_c
             (same_chars (chars pg_mblen s) (chars pg_mblen t))
             (List.length (chars pg_mblen t))
             (List.length (chars pg_mblen s)).
Proof.
  pose proof (char_count_nonneg pg_mblen s) as Hm.
  pose proof (char_count_nonneg pg_mblen t) as Hn.
  unfold matrix_corner. rewrite !chars_length.
  apply (notional_ext ins_c del_c sub_c _ _
           (Z.to_nat (char_count pg_mblen s))
           (Z.to_nat (char_count pg_mblen t))); auto.
  intros i j Hi Hj. apply engine_same_chars; auto; lia.
Qed.

End CornerChars.

(** With equal insertion and deletion costs the corner is symmetric. *)
Lemma matrix_corner_sym pg_mblen (s t : text) (c sub_c : Z) :
  well_encoded pg_mblen s = true -> well_encoded pg_mblen t = true ->
  matrix_corner pg_mblen s t c c sub_c = matrix_corner pg_mblen t s c c sub_c.
Proof.
  intros Ws Wt. rewrite !matrix_corner_chars by assumption.
  rewrite notional_transpose.
  apply (notional_ext c c sub_c _ _ (List.length (chars pg_mblen t))
           (List.length (chars pg_mblen s))); auto.
  intros i j _ _. unfold same_chars. apply char_eqb_sym.
Qed.

(** * The claims *)








(** C7: the result of the two-row engines does not depend on the
    transposition cost: for all inputs, costs and bounds, two calls that
    differ only in [trans_c] have the same outcome. *)
Theorem transposition_cost_unused pg_mblen uninit (s t : text)
    (ins_c del_c sub_c max_d trans_c trans_c' : Z) :
  dameraulevenshtein_internal pg_mblen uninit s t ins_c del_c sub_c trans_c
  = dameraulevenshtein_internal pg_mblen uninit s t ins_c del_c sub_c trans_c'
  /\ dameraulevenshtein_less_equal_internal pg_mblen uninit s t
       ins_c del_c sub_c trans_c max_d
     = dameraulevenshtein_less_equal_internal pg_mblen uninit s t
         ins_c del_c sub_c trans_c' max_d.
Proof. split; reflexivity. Qed.



(** C10: the division that computes the first stop column is never a
    division by zero, so the bounded engine never traps; and when
    [ins_c + del_c = 0] with costs that are not negative and a bound
    [max_d >= 0] that was not rejected, the capped substitution cost is 0,
    the theoretical maximum equals the theoretical minimum, and the block
    ends with [max_d = -1] (no window) without reaching the division. *)
Theorem stop_column_division_safe (m n ins_c del_c sub_c max_d stop_column : Z) :
  bound_setup m n ins_c del_c sub_c max_d stop_column <> SetupDivByZero
  /\ (forall pg_mblen uninit s t trans_c,
        dameraulevenshtein_less_equal_internal pg_mblen uninit s t
          ins_c del_c sub_c trans_c max_d <> DivisionByZero)
  /\ (0 <= sub_c -> ins_c + del_c = 0 ->
      0 <= max_d -> min_theo_d m n ins_c del_c <= max_d ->
      capped_sub_c ins_c del_c sub_c = 0
      /\ max_theo_d m n ins_c del_c (capped_sub_c ins_c del_c sub_c)
         = min_theo_d m n ins_c del_c
      /\ bound_setup m n ins_c del_c sub_c max_d stop_column
         = SetupGo 0 (-1) stop_column).
Proof.
  split; [apply bound_setup_no_trap|]. split.
  - intros pg_mblen uninit s t trans_c.
    apply less_equal_no_trap.
  - intros Hs H0 Hb Hlo.
    assert (Ec : capped_sub_c ins_c del_c sub_c = 0).
    { unfold capped_sub_c. destruct (Z.ltb_spec (ins_c + del_c) sub_c); lia. }
    assert (Eh : max_theo_d m n ins_c del_c (capped_sub_c ins_c del_c sub_c)
                 = min_theo_d m n ins_c del_c).
    { unfold max_theo_d. rewrite Ec. lia. }
    split; [exact Ec|]. split; [exact Eh|].
    unfold bound_setup. rewrite Eh, Ec.
    destruct (Z.leb_spec 0 max_d); [|lia].
    destruct (Z.ltb_spec max_d (min_theo_d m n ins_c del_c)); [lia|].
    destruct (Z.leb_spec (min_theo_d m n ins_c del_c) max_d); [|lia].
    reflexivity.
Qed.

Lemma stop_column_division_safe_witness :
  capped_sub_c 0 0 7 = 0
  /\ max_theo_d 3 5 0 0 (capped_sub_c 0 0 7) = min_theo_d 3 5 0 0
  /\ bound_setup 3 5 0 0 7 4 (3 + 1) = SetupGo 0 (-1) (3 + 1).
Proof.
  apply (stop_column_division_safe 3 5 0 0 7 4 (3 + 1));
    try lia; vm_compute; discriminate.
Defined.

Lemma bound_setup_stop_range (m n ins_c del_c sub_c max_d : Z)
    (sub' max_d' stop : Z) :
  0 <= m ->
  bound_setup m n ins_c del_c sub_c max_d (m + 1) = SetupGo sub' max_d' stop ->
  1 <= stop <= m + 1 /\ (max_d' = max_d \/ max_d' = -1).
Proof.
  intros Hm. unfold bound_setup.
  destruct (Z.leb_spec 0 max_d); [|intros [= <- <- <-]; lia].
  destruct (Z.ltb_spec max_d (min_theo_d m n ins_c del_c)); [discriminate|].
  destruct (_ <=? max_d); [intros [= <- <- <-]; lia|].
  destruct (Z.ltb_spec 0 (ins_c + del_c)); [|intros [= <- <- <-]; lia].
  unfold int_div. destruct (Z.eqb_spec (ins_c + del_c) 0); [lia|].
  pose proof (Z.quot_pos (max_d - min_theo_d m n ins_c del_c)
                         (ins_c + del_c)) as Q.
  intros [= <- <- <-].
  repeat match goal with
         | |- context [?a <? ?b] => destruct (Z.ltb_spec a b)
         end; lia.
Qed.








(** C9: with unit costs [ins_c = del_c = sub_c = 1] the distance of the
    unbounded two-row engine is symmetric: for all well-encoded texts [s]
    and [t] (within the length limit or not), the call on [s], [t] and the
    call on [t], [s] have the same outcome. *)
Theorem unit_cost_distance_symmetric pg_mblen uninit (s t : text)
    (trans_c : Z) :
  well_encoded pg_mblen s = true -> well_encoded pg_mblen t = true ->
  dameraulevenshtein_internal pg_mblen uninit s t 1 1 1 trans_c
  = dameraulevenshtein_internal pg_mblen uninit t s 1 1 1 trans_c.
Proof.
  intros Ws Wt. rewrite !internal_outcome. cbn zeta.
  rewrite (matrix_corner_sym pg_mblen s t 1 1 Ws Wt).
  rewrite (orb_comm (char_count pg_mblen s =? 0)).
  rewrite (andb_comm (char_count pg_mblen s <=? 255)).
  reflexivity.
Qed.

Lemma unit_cost_distance_symmetric_witness :
  dameraulevenshtein_internal pg_utf_mblen junk
    (bytes "kitten") (bytes "caf" ++ [xc3; xa9]) 1 1 1 1
  = dameraulevenshtein_internal pg_utf_mblen junk
      (bytes "caf" ++ [xc3; xa9]) (bytes "kitten") 1 1 1 1.
Proof.
  apply (unit_cost_distance_symmetric pg_utf_mblen junk
           (bytes "kitten") (bytes "caf" ++ [xc3; xa9]) 1);
    vm_compute; reflexivity.
Defined.

(** * Further properties of the two-row engines *)

(** ** A text against itself *)

Lemma rest_of_char_same_loop_refl (k : nat) (x : list byte) :
  rest_of_char_same_loop k x x = true.
Proof.
  induction k as [|k IH]; [reflexivity|].
  cbn [rest_of_char_same_loop]. now rewrite byte_eqb_refl.
Qed.

Lemma mb_char_same_refl (x : list byte) (l : Z) : mb_char_same x l x l = true.
Proof.
  unfold mb_char_same, rest_of_char_same.
  now rewrite byte_eqb_refl, Z.eqb_refl, rest_of_char_same_loop_refl,
    orb_true_r.
Qed.

Lemma engine_same_refl pg_mblen (s : text) (i : nat) :
  Z.of_nat i < char_count pg_mblen s ->
  engine_same pg_mblen s s i i = true.
Proof.
  intros Hi. unfold engine_same, same_at, make_s_char_len.
  set (m := char_count pg_mblen s) in *.
  set (b := VARSIZE_ANY_EXHDR s).
  destruct (Z.eqb_spec m b) as [E|E]; cbn [negb orb].
  - (* single-byte fast path *)
    assert (P : forall k : nat,
              y_ptr pg_mblen s (m + 1) b k = x_ptr None s k).
    { induction k as [|k IH]; [reflexivity|].
      cbn [y_ptr x_ptr]. rewrite IH. unfold y_len, x_len.
      destruct (Z.eqb_spec (m + 1) (b + 1)); [reflexivity|lia]. }
    rewrite P. apply byte_eqb_refl.
  - set (l := fill_char_len pg_mblen (Z.to_nat m) s).
    assert (Px : forall k : nat, Z.of_nat k <= m ->
              x_ptr (Some l) s k = char_ptr pg_mblen s k).
    { induction k as [|k IH]; intros Hk; [reflexivity|].
      cbn [x_ptr char_ptr]. rewrite IH by lia. unfold x_len, l.
      rewrite fill_char_len_rd by lia. reflexivity. }
    assert (Py : forall k : nat,
              y_ptr pg_mblen s (m + 1) b k = char_ptr pg_mblen s k).
    { induction k as [|k IH]; [reflexivity|].
      cbn [y_ptr char_ptr]. rewrite IH. unfold y_len.
      destruct (Z.eqb_spec (m + 1) (b + 1)); [lia|reflexivity]. }
    rewrite Px, Py by lia. unfold y_len, x_len, l.
    destruct (Z.eqb_spec (m + 1) (b + 1)); [lia|]. cbn [negb].
    rewrite fill_char_len_rd by lia. apply mb_char_same_refl.
Qed.

Lemma notional_same_diagonal ins_c del_c sub_c same (k : nat) :
  (forall i, (i < k)%nat -> same i i = true) ->
  notional ins_c del_c sub_c same k k <= 0.
Proof.
  induction k as [|k IH]; intros H.
  - rewrite notional_row0. lia.
  - pose proof (notional_sub_step ins_c del_c sub_c same k k) as S.
    rewrite H in S by lia. specialize (IH ltac:(intros; apply H; lia)). lia.
Qed.

Lemma matrix_corner_self pg_mblen (s : text) (ins_c del_c sub_c : Z) :
  0 <= ins_c -> 0 <= del_c -> 0 <= sub_c ->
  matrix_corner pg_mblen s s ins_c del_c sub_c = 0.
Proof.
  intros Hi Hd Hs. unfold matrix_corner.
  set (m0 := Z.to_nat (char_count pg_mblen s)).
  pose proof (notional_same_diagonal ins_c del_c sub_c
                (engine_same pg_mblen s s) m0) as U.
  pose proof (notional_lower_bound ins_c del_c sub_c
                (engine_same pg_mblen s s) m0 m0 Hi Hd Hs) as L.
  assert (min_theo_d (Z.of_nat m0) (Z.of_nat m0) ins_c del_c = 0).
  { unfold min_theo_d. rewrite Z.sub_diag. cbn. lia. }
  assert (notional ins_c del_c sub_c (engine_same pg_mblen s s) m0 m0 <= 0).
  { apply U. intros i Hi0. apply engine_same_refl. lia. }
  lia.
Qed.



(** ** The theoretical minimum and maximum *)



(** ** What the bound promises *)



(** X4: without a bound ([max_d] negative) the bounded engine is the
    unbounded engine, on every input and for all costs, negative ones
    included. *)
Theorem less_equal_without_bound pg_mblen uninit (s t : text)
    (ins_c del_c sub_c trans_c max_d : Z) :
  max_d < 0 ->
  dameraulevenshtein_less_equal_internal pg_mblen uninit s t
    ins_c del_c sub_c trans_c max_d
  = dameraulevenshtein_internal pg_mblen uninit s t ins_c del_c sub_c trans_c.
Proof.
  intros Hneg.
  unfold dameraulevenshtein_less_equal_internal, less_equal_prologue,
         dameraulevenshtein_internal.
  fold (char_count pg_mblen s) (char_count pg_mblen t).
  pose proof (char_count_nonneg pg_mblen s) as Pm.
  pose proof (char_count_nonneg pg_mblen t) as Pn.
  set (m := char_count pg_mblen s) in *.
  set (n := char_count pg_mblen t) in *.
  destruct (m =? 0); [reflexivity|]. destruct (n =? 0); [reflexivity|].
  destruct (_ || _); [reflexivity|].
  unfold bound_setup. destruct (Z.leb_spec 0 max_d); [lia|].
  cbn [e_sub_c e_max_d e_s_char_len e_m e_n e_t_bytes e_vars].
  set (scl := make_s_char_len _ _ _ _ _ _).
  set (prev := init_prev _ _ _ _). set (curr := palloc_ints _ _ _).
  replace (m + 1) with (Z.of_nat (S (Z.to_nat m))) by lia.
  replace (n + 1) with (Z.of_nat (S (Z.to_nat n))) by lia.
  rewrite rows_le_unbounded by lia.
  destruct (rows _ _ _ _ _ _ _ _ _ _ _ _ _ _). reflexivity.
Qed.

Lemma less_equal_without_bound_witness :
  dameraulevenshtein_less_equal_internal pg_utf_mblen junk
    (bytes "kitten") (bytes "sitting") 1 (-2) 1 1 (-1)
  = dameraulevenshtein_internal pg_utf_mblen junk
      (bytes "kitten") (bytes "sitting") 1 (-2) 1 1.
Proof.
  apply (less_equal_without_bound pg_utf_mblen junk
           (bytes "kitten") (bytes "sitting") 1 (-2) 1 1 (-1)). lia.
Defined.

(** ** Costs *)


(** X6: exchanging the two texts together with the insertion and deletion
    costs does not change the outcome, for well-encoded texts and all
    costs. *)
Theorem distance_exchange pg_mblen uninit (s t : text)
    (ins_c del_c sub_c trans_c : Z) :
  well_encoded pg_mblen s = true -> well_encoded pg_mblen t = true ->
  dameraulevenshtein_internal pg_mblen uninit s t ins_c del_c sub_c trans_c
  = dameraulevenshtein_internal pg_mblen uninit t s del_c ins_c sub_c trans_c.
Proof.
  intros Ws Wt. rewrite !internal_outcome. cbn zeta.
  rewrite !matrix_corner_chars by assumption.
  rewrite notional_transpose.
  rewrite (notional_ext del_c ins_c sub_c _
             (same_chars (chars pg_mblen t) (chars pg_mblen s))
             (List.length (chars pg_mblen t))
             (List.length (chars pg_mblen s))); auto.
  - rewrite (orb_comm (char_count pg_mblen s =? 0)).
    rewrite (andb_comm (char_count pg_mblen s <=? 255)). reflexivity.
  - intros i j _ _. unfold same_chars. apply char_eqb_sym.
Qed.

Lemma distance_exchange_witness :
  dameraulevenshtein_internal pg_utf_mblen junk
    (bytes "kitten") (bytes "caf" ++ [xc3; xa9]) 1 4 2 1
  = dameraulevenshtein_internal pg_utf_mblen junk
      (bytes "caf" ++ [xc3; xa9]) (bytes "kitten") 4 1 2 1.
Proof.
  apply (distance_exchange pg_utf_mblen junk
           (bytes "kitten") (bytes "caf" ++ [xc3; xa9]) 1 4 2 1);
    vm_compute; reflexivity.
Defined.

(** ** The distance as a metric on well-encoded texts *)

Section ScriptPenalties.

Variables ins_c del_c sub_c : Z.
Hypothesis ins_nonneg : 0 <= ins_c.
Hypothesis del_nonneg : 0 <= del_c.
Hypothesis sub_nonneg : 0 <= sub_c.

Local Abbreviation run := (run_script ins_c del_c sub_c).

Lemma run_script_nonneg (es : list edit) :
  forall (src out : list char) (p : Z), run es src = Some (out, p) -> 0 <= p.
Proof.
  induction es as [|e es IH]; intros src out p H.
  - destruct src; cbn in H; [|discriminate]. injection H as <- <-. lia.
  - destruct e as [|c| |c]; cbn [run_script] in H.
    + destruct src as [|a src]; [discriminate|].
      destruct (run es src) as [[o q]|] eqn:E; [|discriminate].
      injection H as <- <-. eauto.
    + destruct src as [|a src]; [discriminate|].
      destruct (run es src) as [[o q]|] eqn:E; [|discriminate].
      injection H as <- <-. specialize (IH _ _ _ E). lia.
    + destruct src as [|a src]; [discriminate|].
      destruct (run es src) as [[o q]|] eqn:E; [|discriminate].
      injection H as <- <-. specialize (IH _ _ _ E). lia.
    + destruct (run es src) as [[o q]|] eqn:E;
        [|destruct src; discriminate].
      assert (ins_c + q = p) by (destruct src; now injection H).
      specialize (IH _ _ _ E). lia.
Qed.

(** A script that costs nothing, when every edit costs something, only
    keeps. *)
Lemma run_script_free (es : list edit) :
  0 < ins_c -> 0 < del_c -> 0 < sub_c ->
  forall (src out : list char), run es src = Some (out, 0) -> out = src.
Proof.
  intros Hi Hd Hs. induction es as [|e es IH]; intros src out H.
  - destruct src; cbn in H; [|discriminate]. now injection H as <-.
  - destruct e as [|c| |c]; cbn [run_script] in H.
    + destruct src as [|a src]; [discriminate|].
      destruct (run es src) as [[o q]|] eqn:E; [|discriminate].
      injection H as <- ->. f_equal. eauto.
    + destruct src as [|a src]; [discriminate|].
      destruct (run es src) as [[o q]|] eqn:E; [|discriminate].
      injection H as _ H. pose proof (run_script_nonneg _ _ _ _ E). lia.
    + destruct src as [|a src]; [discriminate|].
      destruct (run es src) as [[o q]|] eqn:E; [|discriminate].
      injection H as _ H. pose proof (run_script_nonneg _ _ _ _ E). lia.
    + destruct (run es src) as [[o q]|] eqn:E;
        [|destruct src; discriminate].
      assert (ins_c + q = 0) by (destruct src; now injection H).
      pose proof (run_script_nonneg _ _ _ _ E). lia.
Qed.

Lemma run_nil_inv (src out : list char) (p : Z) :
  run [] src = Some (out, p) -> src = [] /\ out = [] /\ p = 0.
Proof. destruct src; cbn; [|discriminate]. intros [= <- <-]. auto. Qed.

Lemma run_insert_eq (c : char) (es : list edit) (src : list char) :
  run (Insert c :: es) src
  = match run es src with
    | Some (out, p) => Some (c :: out, ins_c + p)
    | None => None
    end.
Proof. destruct src; reflexivity. Qed.

Lemma run_insert_inv (c : char) (es : list edit) (src out : list char) (p : Z) :
  run (Insert c :: es) src = Some (out, p) ->
  exists o q, run es src = Some (o, q) /\ out = c :: o /\ p = ins_c + q.
Proof.
  rewrite run_insert_eq.
  destruct (run es src) as [[o q]|] eqn:E; [|discriminate].
  intros [= <- <-]. exists o, q. auto.
Qed.

Lemma run_keep_inv (es : list edit) (src out : list char) (p : Z) :
  run (Keep :: es) src = Some (out, p) ->
  exists a s' o, src = a :: s' /\ run es s' = Some (o, p) /\ out = a :: o.
Proof.
  destruct src as [|a s']; cbn [run_script]; [discriminate|].
  destruct (run es s') as [[o q]|] eqn:E; [|discriminate].
  intros [= <- <-]. exists a, s', o. auto.
Qed.

Lemma run_substitute_inv (c : char) (es : list edit) (src out : list char)
    (p : Z) :
  run (Substitute c :: es) src = Some (out, p) ->
  exists a s' o q,
    src = a :: s' /\ run es s' = Some (o, q) /\ out = c :: o
    /\ p = sub_c + q.
Proof.
  destruct src as [|a s']; cbn [run_script]; [discriminate|].
  destruct (run es s') as [[o q]|] eqn:E; [|discriminate].
  intros [= <- <-]. exists a, s', o, q. auto.
Qed.

Lemma run_delete_inv (es : list edit) (src out : list char) (p : Z) :
  run (Delete :: es) src = Some (out, p) ->
  exists a s' q, src = a :: s' /\ run es s' = Some (out, q) /\ p = del_c + q.
Proof.
  destruct src as [|a s']; cbn [run_script]; [discriminate|].
  destruct (run es s') as [[o q]|] eqn:E; [|discriminate].
  intros [= <- <-]. exists a, s', q. auto.
Qed.

(** Running [A] and then [B] costs at least what [then_script A B]
    costs. *)
Lemma then_script_run (A : list edit) :
  forall (B : list edit) (s t u : list char) (pA pB : Z),
    run A s = Some (t, pA) -> run B t = Some (u, pB) ->
    exists p, run (then_script A B) s = Some (u, p) /\ p <= pA + pB.
Proof.
  induction A as [|a A IHA].
  - intros B s t u pA pB HA HB.
    apply run_nil_inv in HA. destruct HA as (-> & -> & ->).
    exists pB. split; [exact HB|lia].
  - assert (Hdel : a = Delete ->
              forall (B : list edit) (s t u : list char) (pA pB : Z),
                run (a :: A) s = Some (t, pA) -> run B t = Some (u, pB) ->
                exists p, run (then_script (a :: A) B) s = Some (u, p)
                          /\ p <= pA + pB).
    { intros -> B s t u pA pB HA HB.
      apply run_delete_inv in HA. destruct HA as (x & s' & q & -> & HA & ->).
      destruct (IHA B s' t u q pB HA HB) as (p' & E & Hp).
      exists (del_c + p').
      replace (then_script (Delete :: A) B) with (Delete :: then_script A B)
        by (destruct B; reflexivity).
      cbn [run_script]. rewrite E. split; [reflexivity|lia]. }
    induction B as [|b B IHB]; intros s t u pA pB HA HB.
    + destruct a; try (apply (Hdel eq_refl [] s t u pA pB); assumption);
        apply run_nil_inv in HB; destruct HB as (-> & -> & ->).
      * apply run_keep_inv in HA.
        destruct HA as (? & ? & ? & _ & _ & ?). discriminate.
      * apply run_substitute_inv in HA.
        destruct HA as (? & ? & ? & ? & _ & _ & ? & _). discriminate.
      * apply run_insert_inv in HA.
        destruct HA as (? & ? & _ & ? & _). discriminate.
    + destruct a as [|c| |c];
        try (apply (Hdel eq_refl (b :: B) s t u pA pB); assumption).
      * (* Keep *)
        apply run_keep_inv in HA.
        destruct HA as (x & s' & o & -> & HA & ->).
        destruct b as [|d| |d].
        -- apply run_keep_inv in HB.
           destruct HB as (? & ? & o' & [= <- <-] & HB & ->).
           destruct (IHA B s' o o' pA pB HA HB) as (p' & E & Hp).
           exists p'. cbn [then_script then_edit app run_script].
           rewrite E. split; [reflexivity|lia].
        -- apply run_substitute_inv in HB.
           destruct HB as (? & ? & o' & q' & [= <- <-] & HB & -> & ->).
           destruct (IHA B s' o o' pA q' HA HB) as (p' & E & Hp).
           exists (sub_c + p'). cbn [then_script then_edit app run_script].
           rewrite E. split; [reflexivity|lia].
        -- apply run_delete_inv in HB.
           destruct HB as (? & ? & q' & [= <- <-] & HB & ->).
           destruct (IHA B s' o u pA q' HA HB) as (p' & E & Hp).
           exists (del_c + p'). cbn [then_script then_edit app run_script].
           rewrite E. split; [reflexivity|lia].
        -- apply run_insert_inv in HB.
           destruct HB as (o' & q' & HB & -> & ->).
           assert (HA' : run (Keep :: A) (x :: s') = Some (x :: o, pA))
             by (cbn [run_script]; now rewrite HA).
           destruct (IHB (x :: s') (x :: o) o' pA q' HA' HB) as (p' & E & Hp).
           exists (ins_c + p').
           change (then_script (Keep :: A) (Insert d :: B))
             with (Insert d :: then_script (Keep :: A) B).
           rewrite run_insert_eq, E. split; [reflexivity|lia].
      * (* Substitute *)
        apply run_substitute_inv in HA.
        destruct HA as (x & s' & o & q & -> & HA & -> & ->).
        destruct b as [|d| |d].
        -- apply run_keep_inv in HB.
           destruct HB as (? & ? & o' & [= <- <-] & HB & ->).
           destruct (IHA B s' o o' q pB HA HB) as (p' & E & Hp).
           exists (sub_c + p'). cbn [then_script then_edit app run_script].
           rewrite E. split; [reflexivity|lia].
        -- apply run_substitute_inv in HB.
           destruct HB as (? & ? & o' & q' & [= <- <-] & HB & -> & ->).
           destruct (IHA B s' o o' q q' HA HB) as (p' & E & Hp).
           exists (sub_c + p'). cbn [then_script then_edit app run_script].
           rewrite E. split; [reflexivity|lia].
        -- apply run_delete_inv in HB.
           destruct HB as (? & ? & q' & [= <- <-] & HB & ->).
           destruct (IHA B s' o u q q' HA HB) as (p' & E & Hp).
           exists (del_c + p'). cbn [then_script then_edit app run_script].
           rewrite E. split; [reflexivity|lia].
        -- apply run_insert_inv in HB.
           destruct HB as (o' & q' & HB & -> & ->).
           assert (HA' : run (Substitute c :: A) (x :: s')
                         = Some (c :: o, sub_c + q))
             by (cbn [run_script]; now rewrite HA).
           destruct (IHB (x :: s') (c :: o) o' (sub_c + q) q' HA' HB)
             as (p' & E & Hp).
           exists (ins_c + p').
           change (then_script (Substitute c :: A) (Insert d :: B))
             with (Insert d :: then_script (Substitute c :: A) B).
           rewrite run_insert_eq, E. split; [reflexivity|lia].
      * (* Insert *)
        pose proof HA as HA0.
        apply run_insert_inv in HA.
        destruct HA as (o & q & HA & -> & ->).
        destruct b as [|d| |d].
        -- apply run_keep_inv in HB.
           destruct HB as (? & ? & o' & [= <- <-] & HB & ->).
           destruct (IHA B s o o' q pB HA HB) as (p' & E & Hp).
           exists (ins_c + p'). cbn [then_script then_edit app].
           rewrite run_insert_eq, E. split; [reflexivity|lia].
        -- apply run_substitute_inv in HB.
           destruct HB as (? & ? & o' & q' & [= <- <-] & HB & -> & ->).
           destruct (IHA B s o o' q q' HA HB) as (p' & E & Hp).
           exists (ins_c + p'). cbn [then_script then_edit app].
           rewrite run_insert_eq, E. split; [reflexivity|lia].
        -- apply run_delete_inv in HB.
           destruct HB as (? & ? & q' & [= <- <-] & HB & ->).
           destruct (IHA B s o u q q' HA HB) as (p' & E & Hp).
           exists p'. cbn [then_script then_edit app].
           split; [exact E|lia].
        -- apply run_insert_inv in HB.
           destruct HB as (o' & q' & HB & -> & ->).
           destruct (IHB s (c :: o) o' (ins_c + q) q' HA0 HB) as (p' & E & Hp).
           exists (ins_c + p').
           change (then_script (Insert c :: A) (Insert d :: B))
             with (Insert d :: then_script (Insert c :: A) B).
           rewrite run_insert_eq, E. split; [reflexivity|lia].
Qed.

End ScriptPenalties.

Section CornerScripts.

Variable pg_mblen : list byte -> Z.
Variables ins_c del_c sub_c : Z.
Variables s t : text.
Hypothesis s_well_encoded : well_encoded pg_mblen s = true.
Hypothesis t_well_encoded : well_encoded pg_mblen t = true.

Lemma corner_has_script :
  exists es,
    run_script ins_c del_c sub_c es (chars pg_mblen s)
    = Some (chars pg_mblen t, matrix_corner pg_mblen s t ins_c del_c sub_c).
Proof.
  rewrite matrix_corner_chars by assumption.
  destruct (script_exists ins_c del_c sub_c
              (chars pg_mblen s) (chars pg_mblen t)
              (List.length (chars pg_mblen t))
              (List.length (chars pg_mblen s)) (le_n _) (le_n _))
    as (es & E).
  exists es. now rewrite !firstn_all in E.
Qed.

Lemma corner_is_least (es : list edit) (p : Z) :
  0 <= sub_c ->
  run_script ins_c del_c sub_c es (chars pg_mblen s)
  = Some (chars pg_mblen t, p) ->
  matrix_corner pg_mblen s t ins_c del_c sub_c <= p.
Proof.
  intros Hs E. rewrite matrix_corner_chars by assumption.
  pose proof (script_lower_bound ins_c del_c sub_c
                (chars pg_mblen s) (chars pg_mblen t) es Hs
                0%nat 0%nat p (Nat.le_0_l _) (Nat.le_0_l _) E) as L.
  rewrite notional_row0 in L. cbn [Z.of_nat] in L. lia.
Qed.

End CornerScripts.

Lemma internal_within_limit pg_mblen uninit (s t : text)
    (ins_c del_c sub_c trans_c : Z) :
  char_count pg_mblen s <= 255 -> char_count pg_mblen t <= 255 ->
  dameraulevenshtein_internal pg_mblen uninit s t ins_c del_c sub_c trans_c
  = Ret (matrix_corner pg_mblen s t ins_c del_c sub_c).
Proof.
  intros Hm Hn. rewrite internal_outcome. cbn zeta.
  destruct (Z.leb_spec (char_count pg_mblen s) 255); [|lia].
  destruct (Z.leb_spec (char_count pg_mblen t) 255); [|lia].
  now rewrite orb_true_r.
Qed.





(** * The three-row engine *)

Section SwapRowsSpec.

Variables ins_c del_c sub_c trans_c : Z.
Variables string1 string2 : list byte.

Local Abbreviation D := (swap_matrix ins_c del_c sub_c trans_c string1 string2).

Lemma swap_matrix_row0 (j : nat) : D 0 j = Z.of_nat j * ins_c.
Proof. reflexivity. Qed.

Lemma swap_matrix_rows_fst (i : nat) :
  fst (swap_matrix_rows ins_c del_c sub_c trans_c string1 string2 (S i))
  = snd (swap_matrix_rows ins_c del_c sub_c trans_c string1 string2 i).
Proof.
  cbn [swap_matrix_rows].
  now destruct (swap_matrix_rows ins_c del_c sub_c trans_c string1 string2 i).
Qed.

Lemma swap_matrix_col0 (i : nat) : D i 0 = Z.of_nat i * del_c.
Proof.
  destruct i as [|i]; [reflexivity|].
  unfold swap_matrix. cbn [swap_matrix_rows].
  now destruct (swap_matrix_rows ins_c del_c sub_c trans_c string1 string2 i).
Qed.

Lemma swap_matrix_step1 (j : nat) :
  D 1 (S j) = swap_value ins_c del_c sub_c trans_c string1 string2 0 j
                0 (D 0 j) (D 0 (S j)) (D 1 j).
Proof. reflexivity. Qed.

Lemma swap_matrix_step (i j : nat) :
  D (S (S i)) (S j)
  = swap_value ins_c del_c sub_c trans_c string1 string2 (S i) j
      (D i (Nat.pred j)) (D (S i) j) (D (S i) (S j)) (D (S (S i)) j).
Proof.
  unfold swap_matrix.
  change (swap_matrix_rows ins_c del_c sub_c trans_c string1 string2 (S (S i)))
    with (let '(r0, r1) :=
            swap_matrix_rows ins_c del_c sub_c trans_c string1 string2 (S i)
          in (r1, swap_next_row ins_c del_c sub_c trans_c string1 string2
                    (S i) r0 r1)).
  pose proof (swap_matrix_rows_fst i) as F.
  destruct (swap_matrix_rows ins_c del_c sub_c trans_c string1 string2 (S i))
    as [r0 r1].
  cbn [fst snd] in *. rewrite <- F. reflexivity.
Qed.

(** The value of a cell does not look two rows back unless the characters
    are swapped matches, which needs [i > 0] and [j > 0]. *)
Lemma swap_value_first (i j : nat) (a b diag up left : Z) :
  (i = 0%nat \/ j = 0%nat) ->
  swap_value ins_c del_c sub_c trans_c string1 string2 i j a diag up left
  = swap_value ins_c del_c sub_c trans_c string1 string2 i j b diag up left.
Proof.
  intros H. unfold swap_value, swapped_match.
  destruct H as [-> | ->]; cbn [Z.of_nat Z.ltb Z.compare andb];
    rewrite ?andb_false_r; reflexivity.
Qed.

Lemma swap_matrix_cell (i j : nat) (a : Z) :
  (i = 0%nat -> a = 0) ->
  ((0 < i)%nat -> (0 < j)%nat -> a = D (Nat.pred i) (Nat.pred j)) ->
  D (S i) (S j)
  = swap_value ins_c del_c sub_c trans_c string1 string2 i j
      a (D i j) (D i (S j)) (D (S i) j).
Proof.
  intros H0 H1. destruct i as [|i].
  - rewrite swap_matrix_step1, H0; reflexivity.
  - rewrite swap_matrix_step. destruct j as [|j].
    + apply swap_value_first. now right.
    + rewrite (H1 ltac:(lia) ltac:(lia)). reflexivity.
Qed.

Lemma init_row1_length (cnt : nat) (j : Z) (row1 : list Z) :
  List.length (init_row1 ins_c cnt j row1) = List.length row1.
Proof.
  revert j row1. induction cnt as [|c IH]; intros j row1; cbn [init_row1];
    auto. now rewrite IH, wr_length.
Qed.

Lemma init_row1_rd (cnt : nat) (j : Z) (row1 : list Z) (k : Z) :
  0 <= j -> j + Z.of_nat cnt <= Z.of_nat (List.length row1) -> 0 <= k ->
  rd (init_row1 ins_c cnt j row1) k
  = if (j <=? k) && (k <? j + Z.of_nat cnt) then k * ins_c else rd row1 k.
Proof.
  revert j row1. induction cnt as [|c IH]; intros j row1 Hj Hl Hk;
    cbn [init_row1].
  - destruct (Z.leb_spec j k), (Z.ltb_spec k (j + Z.of_nat 0)); cbn; auto; lia.
  - rewrite IH by (rewrite ?wr_length; lia).
    destruct (Z.leb_spec (j + 1) k), (Z.ltb_spec k (j + 1 + Z.of_nat c)),
      (Z.leb_spec j k), (Z.ltb_spec k (j + Z.of_nat (S c)));
      cbn [andb]; try lia; auto;
      try (rewrite rd_wr_other by lia; reflexivity);
      assert (k = j) as -> by lia; rewrite rd_wr_same by lia; reflexivity.
Qed.

(** What the four assignments of the inner loop leave in [row2]. *)
Lemma swap_cell_rd (i j : Z) (row0 row1 row2 : list Z) :
  0 <= j -> j + 1 < Z.of_nat (List.length row2) ->
  let row2' := swap_cell ins_c del_c sub_c trans_c string1 string2
                         i j row0 row1 row2 in
  rd row2' (j + 1)
  = swap_cell_value ins_c del_c sub_c trans_c string1 string2
                    i j row0 row1 row2
  /\ List.length row2' = List.length row2
  /\ forall k, 0 <= k -> k <> j + 1 -> rd row2' k = rd row2 k.
Proof.
  intros Hj Hl.
  cbn zeta. unfold swap_cell, swap_cell_value.
  fold (swapped_match string1 string2 i j).
  set (e := Byte.eqb (ptr_at string1 i) (ptr_at string2 j)).
  set (a := rd row1 j + sub_c * (if e then 0 else 1)).
  assert (Ea : a = if e then rd row1 j else rd row1 j + sub_c)
    by (unfold a; destruct e; lia).
  set (r1 := wr row2 (j + 1) a).
  assert (R1 : rd r1 (j + 1) = a) by (apply rd_wr_same; lia).
  assert (K1 : forall k, 0 <= k -> k <> j + 1 -> rd r1 k = rd row2 k)
    by (intros; apply rd_wr_other; lia).
  assert (L1 : List.length r1 = List.length row2) by apply wr_length.
  set (r2 := if swapped_match string1 string2 i j
                && (rd row0 (j - 1) + trans_c <? rd r1 (j + 1))
             then wr r1 (j + 1) (rd row0 (j - 1) + trans_c) else r1).
  assert (R2 : rd r2 (j + 1)
               = if swapped_match string1 string2 i j
                 then Z.min a (rd row0 (j - 1) + trans_c) else a).
  { unfold r2. destruct (swapped_match string1 string2 i j); cbn [andb];
      auto. rewrite R1.
    destruct (Z.ltb_spec (rd row0 (j - 1) + trans_c) a).
    - rewrite rd_wr_same by lia. lia.
    - rewrite R1. lia. }
  assert (K2 : forall k, 0 <= k -> k <> j + 1 -> rd r2 k = rd row2 k).
  { intros k H0 H1. unfold r2. destruct (_ && _); auto.
    rewrite rd_wr_other by lia. auto. }
  assert (L2 : List.length r2 = List.length row2).
  { unfold r2. destruct (_ && _); auto. now rewrite wr_length. }
  change (if swapped_match string1 string2 i j
             && (rd row0 (j - 1) + trans_c <? rd r1 (j + 1))
          then wr r1 (j + 1) (rd row0 (j - 1) + trans_c) else r1) with r2.
  set (r3 := if rd row1 (j + 1) + del_c <? rd r2 (j + 1)
             then wr r2 (j + 1) (rd row1 (j + 1) + del_c) else r2).
  assert (R3 : rd r3 (j + 1)
               = Z.min (rd r2 (j + 1)) (rd row1 (j + 1) + del_c)).
  { unfold r3. destruct (Z.ltb_spec (rd row1 (j + 1) + del_c)
                                    (rd r2 (j + 1))).
    - rewrite rd_wr_same by lia. lia.
    - lia. }
  assert (K3 : forall k, 0 <= k -> k <> j + 1 -> rd r3 k = rd row2 k).
  { intros k H0 H1. unfold r3.
    destruct (rd row1 (j + 1) + del_c <? rd r2 (j + 1)); auto.
    rewrite rd_wr_other by lia. auto. }
  assert (L3 : List.length r3 = List.length row2).
  { unfold r3. destruct (rd row1 (j + 1) + del_c <? rd r2 (j + 1)); auto.
    now rewrite wr_length. }
  rewrite (K3 j) by lia.
  destruct (Z.ltb_spec (rd row2 j + ins_c) (rd r3 (j + 1))) as [H|H].
  + rewrite rd_wr_same by lia. rewrite wr_length.
    split; [|split; [auto|]].
    * rewrite R3, R2, Ea in H.
      destruct (swapped_match string1 string2 i j), e; lia.
    * intros k H0 H1. rewrite rd_wr_other by lia. auto.
  + split; [|split; auto].
    rewrite R3, R2, Ea in *.
    destruct (swapped_match string1 string2 i j), e; lia.
Qed.

Section Loops.

Variable len2 : nat.

Local Abbreviation is_row :=
  (row_is ins_c del_c sub_c trans_c string1 string2 len2).

Lemma swap_cell_value_matrix (i j : nat) (row0 row1 row2 : list Z) :
  (j < len2)%nat ->
  ((0 < i)%nat -> is_row row0 (Nat.pred i)) ->
  is_row row1 i ->
  rd row2 (Z.of_nat j) = D (S i) j ->
  swap_cell_value ins_c del_c sub_c trans_c string1 string2
    (Z.of_nat i) (Z.of_nat j) row0 row1 row2
  = D (S i) (S j).
Proof.
  intros Hj R0 [L1 R1] R2.
  pose (a := if (0 <? i)%nat && (0 <? j)%nat
             then rd row0 (Z.of_nat j - 1) else 0).
  rewrite (swap_matrix_cell i j a).
  - unfold swap_cell_value, swap_value.
    rewrite R2, (R1 j) by lia.
    replace (Z.of_nat j + 1) with (Z.of_nat (S j)) by lia.
    rewrite (R1 (S j)) by lia.
    destruct (swapped_match string1 string2 (Z.of_nat i) (Z.of_nat j)) eqn:SM;
      [|reflexivity].
    unfold swapped_match in SM.
    destruct (Z.ltb_spec 0 (Z.of_nat i)); [|discriminate].
    destruct (Z.ltb_spec 0 (Z.of_nat j)); [|discriminate].
    unfold a.
    destruct (Nat.ltb_spec 0 i); [|lia].
    destruct (Nat.ltb_spec 0 j); [|lia].
    reflexivity.
  - intros ->. reflexivity.
  - intros Hi0 Hj0. unfold a.
    destruct (Nat.ltb_spec 0 i); [|lia].
    destruct (Nat.ltb_spec 0 j); [|lia]. cbn [andb].
    destruct (R0 Hi0) as [_ R]. rewrite <- R by lia. f_equal. lia.
Qed.

Lemma swap_inner_spec (i : nat) (row0 row1 : list Z) (cnt : nat) :
  ((0 < i)%nat -> is_row row0 (Nat.pred i)) ->
  is_row row1 i ->
  forall (j : nat) (row2 : list Z),
    (j + cnt = len2)%nat ->
    List.length row2 = S len2 ->
    (forall k : nat, (k <= j)%nat -> rd row2 (Z.of_nat k) = D (S i) k) ->
    is_row (swap_inner ins_c del_c sub_c trans_c string1 string2 cnt
              (Z.of_nat i) (Z.of_nat j) row0 row1 row2) (S i).
Proof.
  intros R0 R1. induction cnt as [|c IH]; intros j row2 Hc L2 R2;
    cbn [swap_inner].
  - split; [assumption|]. intros k Hk. apply R2. lia.
  - destruct (swap_cell_rd (Z.of_nat i) (Z.of_nat j) row0 row1 row2)
      as (V & L & K); [lia | lia |].
    replace (Z.of_nat j + 1) with (Z.of_nat (S j)) in * by lia.
    apply IH; [lia | congruence |].
    intros k Hk. destruct (Nat.eq_dec k (S j)) as [-> | Hne].
    + rewrite V. apply swap_cell_value_matrix; auto; try lia; apply R2; lia.
    + rewrite K by lia. apply R2. lia.
Qed.

Lemma swap_rows_spec (cnt : nat) :
  forall (i : nat) (row0 row1 row2 : list Z),
    List.length row0 = S len2 ->
    ((0 < i)%nat -> is_row row0 (Nat.pred i)) ->
    is_row row1 i ->
    List.length row2 = S len2 ->
    let '(_, row1', _) :=
      swap_rows ins_c del_c sub_c trans_c string1 string2 (Z.of_nat len2)
                cnt (Z.of_nat i) row0 row1 row2 in
    is_row row1' (i + cnt).
Proof.
  induction cnt as [|c IH]; intros i row0 row1 row2 L0 R0 R1 L2;
    cbn [swap_rows].
  - now rewrite Nat.add_0_r.
  - replace (Z.of_nat i + 1) with (Z.of_nat (S i)) by lia.
    replace (i + S c)%nat with (S i + c)%nat by lia.
    apply IH.
    + apply R1.
    + intros _. exact R1.
    + replace (Z.to_nat (Z.of_nat len2 - 0)) with len2 by lia.
      apply (swap_inner_spec i row0 row1 len2 R0 R1 0%nat).
      * lia.
      * now rewrite wr_length.
      * intros k Hk. assert (k = 0%nat) as -> by lia.
        rewrite swap_matrix_col0. cbn [Z.of_nat].
        rewrite rd_wr_same by lia. lia.
    + exact L0.
Qed.

End Loops.

End SwapRowsSpec.

(** The three-row engine returns the last cell of its matrix, whatever the
    rows hold when they are allocated. *)
Lemma noncompatible_corner pg_mblen uninit (s t : text)
    (ins_c del_c sub_c trans_c : Z) :
  dameraulevenshtein_internal_noncompatible pg_mblen uninit s t
    ins_c del_c sub_c trans_c
  = swap_matrix ins_c del_c sub_c trans_c s t
      (Z.to_nat (char_count pg_mblen s)) (Z.to_nat (char_count pg_mblen t)).
Proof.
  unfold dameraulevenshtein_internal_noncompatible. cbn zeta.
  fold (char_count pg_mblen s). fold (char_count pg_mblen t).
  pose proof (char_count_nonneg pg_mblen s) as Hm.
  pose proof (char_count_nonneg pg_mblen t) as Hn.
  set (m := char_count pg_mblen s) in *.
  set (n := char_count pg_mblen t) in *.
  set (row0 := palloc_ints uninit 0 (n + 1)).
  set (row1 := init_row1 ins_c (Z.to_nat (n + 1 - 0)) 0
                 (palloc_ints uninit (n + 1) (n + 1))).
  set (row2 := palloc_ints uninit (2 * (n + 1)) (n + 1)).
  pose proof (swap_rows_spec ins_c del_c sub_c trans_c s t (Z.to_nat n)
                (Z.to_nat m) 0%nat row0 row1 row2) as S.
  rewrite Z2Nat.id in S by lia. cbn [Z.of_nat] in S.
  replace (m - 0) with m by lia.
  destruct (swap_rows ins_c del_c sub_c trans_c s t n (Z.to_nat m) 0
              row0 row1 row2) as [[r0 r1] r2].
  destruct S as [_ R].
  - unfold row0. rewrite palloc_ints_length. lia.
  - intros H; lia.
  - unfold row1. split.
    + rewrite init_row1_length, palloc_ints_length. lia.
    + intros k Hk. rewrite init_row1_rd; rewrite ?palloc_ints_length; try lia.
      destruct (Z.leb_spec 0 (Z.of_nat k)); [|lia].
      destruct (Z.ltb_spec (Z.of_nat k) (0 + Z.of_nat (Z.to_nat (n + 1 - 0))));
        [|lia].
      reflexivity.
  - unfold row2. rewrite palloc_ints_length. lia.
  - cbn [Nat.add] in R. rewrite <- (R (Z.to_nat n)) by lia.
    now rewrite Z2Nat.id by lia.
Qed.

(** ** The matrix of the three-row engine and the notional matrix *)

Section SwapMatrixFacts.

Variables ins_c del_c sub_c trans_c : Z.
Variables string1 string2 : list byte.

Local Abbreviation D := (swap_matrix ins_c del_c sub_c trans_c string1 string2).
Local Abbreviation L :=
  (notional ins_c del_c sub_c (byte_same string1 string2)).

(** One equation for every cell off the borders. *)
Lemma swap_matrix_inner (i j : nat) :
  D (S i) (S j)
  = swap_value ins_c del_c sub_c trans_c string1 string2 i j
      (D (Nat.pred i) (Nat.pred j)) (D i j) (D i (S j)) (D (S i) j).
Proof.
  destruct i as [|i].
  - rewrite swap_matrix_step1. apply swap_value_first. now left.
  - rewrite swap_matrix_step. destruct j as [|j].
    + apply swap_value_first. now right.
    + reflexivity.
Qed.

Lemma swapped_match_inv (i j : nat) :
  swapped_match string1 string2 (Z.of_nat i) (Z.of_nat j) = true ->
  exists i' j', i = S i' /\ j = S j'
    /\ byte_same string1 string2 i' j = true
    /\ byte_same string1 string2 i j' = true.
Proof.
  unfold swapped_match, byte_same. intros H.
  apply andb_prop in H as [H H4]. apply andb_prop in H as [H H3].
  apply andb_prop in H as [H1 H2].
  apply Z.ltb_lt in H1, H2.
  destruct i as [|i']; [lia|]. destruct j as [|j']; [lia|].
  exists i', j'. repeat split.
  - now replace (Z.of_nat (S i') - 1) with (Z.of_nat i') in H3 by lia.
  - now replace (Z.of_nat (S j') - 1) with (Z.of_nat j') in H4 by lia.
Qed.

Lemma swap_value_le (i j : nat) (a diag up left : Z) :
  swap_value ins_c del_c sub_c trans_c string1 string2 i j a diag up left
  <= cell ins_c del_c sub_c left up diag (byte_same string1 string2 i j).
Proof.
  unfold swap_value, cell, byte_same.
  destruct (swapped_match _ _ _ _), (Byte.eqb _ _); lia.
Qed.

Lemma swap_value_plain (i j : nat) (a diag up left : Z) :
  (swapped_match string1 string2 (Z.of_nat i) (Z.of_nat j) = true ->
   cell ins_c del_c sub_c left up diag (byte_same string1 string2 i j)
   <= a + trans_c) ->
  swap_value ins_c del_c sub_c trans_c string1 string2 i j a diag up left
  = cell ins_c del_c sub_c left up diag (byte_same string1 string2 i j).
Proof.
  unfold swap_value, cell, byte_same.
  destruct (swapped_match _ _ _ _), (Byte.eqb _ _); intros H;
    try specialize (H eq_refl); lia.
Qed.

(** A swap never makes a cell dearer. *)
Lemma swap_matrix_le_notional (k : nat) :
  forall i j : nat, (i + j < k)%nat -> D i j <= L j i.
Proof.
  induction k as [|k IH]; intros i j Hk; [lia|].
  destruct i as [|i].
  - rewrite swap_matrix_row0, notional_col0. lia.
  - destruct j as [|j].
    + rewrite swap_matrix_col0, notional_row0. lia.
    + rewrite swap_matrix_inner, notional_step.
      etransitivity; [apply swap_value_le|].
      pose proof (IH i j ltac:(lia)).
      pose proof (IH i (S j) ltac:(lia)).
      pose proof (IH (S i) j ltac:(lia)).
      unfold cell. destruct (byte_same string1 string2 i j); lia.
Qed.

(** When a swap costs at least a deletion and an insertion, the two
    matrices are the same. *)
Lemma swap_matrix_eq_notional (k : nat) :
  ins_c + del_c <= trans_c ->
  forall i j : nat, (i + j < k)%nat -> D i j = L j i.
Proof.
  intros Ht. induction k as [|k IH]; intros i j Hk; [lia|].
  destruct i as [|i].
  - rewrite swap_matrix_row0, notional_col0. lia.
  - destruct j as [|j].
    + rewrite swap_matrix_col0, notional_row0. lia.
    + rewrite swap_matrix_inner, notional_step.
      rewrite (IH i j), (IH i (S j)), (IH (S i) j) by lia.
      apply swap_value_plain. intros SM.
      apply swapped_match_inv in SM as (i' & j' & -> & -> & S1 & S2).
      cbn [Nat.pred]. rewrite (IH i' j') by lia.
      (* insert, keep, delete *)
      assert (A : L (S j') i' <= L j' i' + ins_c).
      { destruct i' as [|i'].
        - rewrite !notional_col0. lia.
        - rewrite (notional_step _ _ _ _ j' i'). unfold cell. lia. }
      assert (B : L (S (S j')) (S i') <= L (S j') i').
      { rewrite (notional_step _ _ _ _ (S j') i'). rewrite S1.
        unfold cell. lia. }
      unfold cell. lia.
Qed.

End SwapMatrixFacts.

Lemma byte_eqb_sym (a b : byte) : Byte.eqb a b = Byte.eqb b a.
Proof.
  destruct (Byte.eqb a b) eqn:E.
  - apply Byte.byte_dec_bl in E. subst. symmetry. apply byte_eqb_refl.
  - destruct (Byte.eqb b a) eqn:E'; auto.
    apply Byte.byte_dec_bl in E'. subst. rewrite byte_eqb_refl in E.
    discriminate.
Qed.

(** Exchanging the texts exchanges rows and columns, insertions and
    deletions. *)
Lemma swap_matrix_transpose ins_c del_c sub_c trans_c
    (string1 string2 : list byte) (k : nat) :
  forall i j : nat, (i + j < k)%nat ->
    swap_matrix ins_c del_c sub_c trans_c string1 string2 i j
    = swap_matrix del_c ins_c sub_c trans_c string2 string1 j i.
Proof.
  induction k as [|k IH]; intros i j Hk; [lia|].
  destruct i as [|i].
  - rewrite swap_matrix_row0, swap_matrix_col0. reflexivity.
  - destruct j as [|j].
    + rewrite swap_matrix_row0, swap_matrix_col0. reflexivity.
    + rewrite !swap_matrix_inner.
      rewrite (IH i j), (IH i (S j)), (IH (S i) j),
        (IH (Nat.pred i) (Nat.pred j)) by lia.
      unfold swap_value, swapped_match.
      rewrite (byte_eqb_sym (ptr_at string2 (Z.of_nat j))
                 (ptr_at string1 (Z.of_nat i))).
      rewrite (byte_eqb_sym (ptr_at string2 (Z.of_nat j - 1))
                 (ptr_at string1 (Z.of_nat i))).
      rewrite (byte_eqb_sym (ptr_at string2 (Z.of_nat j))
                 (ptr_at string1 (Z.of_nat i - 1))).
      destruct (0 <? Z.of_nat i), (0 <? Z.of_nat j),
        (Byte.eqb (ptr_at string1 (Z.of_nat i - 1))
                  (ptr_at string2 (Z.of_nat j))),
        (Byte.eqb (ptr_at string1 (Z.of_nat i))
                  (ptr_at string2 (Z.of_nat j - 1))),
        (Byte.eqb (ptr_at string1 (Z.of_nat i))
                  (ptr_at string2 (Z.of_nat j)));
        cbn [andb]; lia.
Qed.

(** A cell depends on the bytes before its row and column only. *)
Lemma swap_matrix_ext ins_c del_c sub_c trans_c
    (string1 string2 string1' string2' : list byte) (m0 n0 k : nat) :
  (forall i, (i < m0)%nat -> nth i string1 x00 = nth i string1' x00) ->
  (forall j, (j < n0)%nat -> nth j string2 x00 = nth j string2' x00) ->
  forall i j : nat, (i + j < k)%nat -> (i <= m0)%nat -> (j <= n0)%nat ->
    swap_matrix ins_c del_c sub_c trans_c string1 string2 i j
    = swap_matrix ins_c del_c sub_c trans_c string1' string2' i j.
Proof.
  intros H1 H2. induction k as [|k IH]; intros i j Hk Hi Hj; [lia|].
  destruct i as [|i].
  - rewrite !swap_matrix_row0. reflexivity.
  - destruct j as [|j].
    + rewrite !swap_matrix_col0. reflexivity.
    + rewrite !swap_matrix_inner.
      rewrite (IH i j), (IH i (S j)), (IH (S i) j),
        (IH (Nat.pred i) (Nat.pred j)) by lia.
      unfold swap_value, swapped_match, ptr_at.
      rewrite !Nat2Z.id.
      rewrite (H1 i), (H2 j) by lia.
      destruct i as [|i]; [reflexivity|].
      destruct j as [|j]; [reflexivity|].
      replace (Z.to_nat (Z.of_nat (S i) - 1)) with i by lia.
      replace (Z.to_nat (Z.of_nat (S j) - 1)) with j by lia.
      rewrite (H1 i), (H2 j) by lia.
      reflexivity.
Qed.

(** ** Single-byte texts in the two-row engine *)

Section SingleByte.

Variable pg_mblen : list byte -> Z.
Variables s t : text.
Hypothesis s_single : char_count pg_mblen s = VARSIZE_ANY_EXHDR s.
Hypothesis t_single : char_count pg_mblen t = VARSIZE_ANY_EXHDR t.

Lemma ptr_add_skipn (p : list byte) (k : nat) :
  ptr_add (skipn k p) 1 = skipn (S k) p.
Proof.
  unfold ptr_add. change (Z.to_nat 1) with 1%nat.
  rewrite skipn_skipn. reflexivity.
Qed.

Lemma ptr_at_skipn (p : list byte) (k : nat) :
  ptr_at (skipn k p) 0 = ptr_at p (Z.of_nat k).
Proof.
  unfold ptr_at. rewrite Nat2Z.id. change (Z.to_nat 0) with 0%nat.
  revert p. induction k as [|k IH]; intros [|b p]; cbn; auto.
Qed.

Lemma engine_same_single_byte (i j : nat) :
  engine_same pg_mblen s t i j = byte_same s t i j.
Proof.
  unfold engine_same, make_s_char_len.
  rewrite s_single, t_single, !Z.eqb_refl. cbn [negb orb].
  unfold same_at, byte_same.
  assert (X : forall k, x_ptr None s k = skipn k s).
  { induction k as [|k IH]; [reflexivity|].
    cbn [x_ptr]. rewrite IH. unfold x_len. apply ptr_add_skipn. }
  assert (Y : forall k,
             y_ptr pg_mblen t (VARSIZE_ANY_EXHDR t + 1) (VARSIZE_ANY_EXHDR t) k
             = skipn k t).
  { induction k as [|k IH]; [reflexivity|].
    cbn [y_ptr]. rewrite IH. unfold y_len. rewrite Z.eqb_refl. cbn [negb].
    apply ptr_add_skipn. }
  rewrite X, Y, !ptr_at_skipn. reflexivity.
Qed.

Lemma matrix_corner_single_byte (ins_c del_c sub_c : Z) :
  matrix_corner pg_mblen s t ins_c del_c sub_c
  = notional ins_c del_c sub_c (byte_same s t)
      (Z.to_nat (char_count pg_mblen t)) (Z.to_nat (char_count pg_mblen s)).
Proof.
  unfold matrix_corner.
  apply (notional_ext ins_c del_c sub_c _ _
           (Z.to_nat (char_count pg_mblen s))
           (Z.to_nat (char_count pg_mblen t)));
    auto using engine_same_single_byte.
Qed.

End SingleByte.









(** X14: the three-row engine indexes both texts by byte but stops at
    their character counts: its result depends on the character counts and
    on that many leading bytes of each text only.  Two texts of multi-byte
    characters that differ only after these bytes are not told apart. *)
Theorem three_row_reads_leading_bytes pg_mblen uninit (s s' t t' : text)
    (ins_c del_c sub_c trans_c : Z) :
  char_count pg_mblen s = char_count pg_mblen s' ->
  char_count pg_mblen t = char_count pg_mblen t' ->
  firstn (Z.to_nat (char_count pg_mblen s)) s
  = firstn (Z.to_nat (char_count pg_mblen s)) s' ->
  firstn (Z.to_nat (char_count pg_mblen t)) t
  = firstn (Z.to_nat (char_count pg_mblen t)) t' ->
  dameraulevenshtein_internal_noncompatible pg_mblen uninit s t
    ins_c del_c sub_c trans_c
  = dameraulevenshtein_internal_noncompatible pg_mblen uninit s' t'
      ins_c del_c sub_c trans_c.
Proof.
  intros Cs Ct Fs Ft. rewrite !noncompatible_corner, <- Cs, <- Ct.
  set (m0 := Z.to_nat (char_count pg_mblen s)) in *.
  set (n0 := Z.to_nat (char_count pg_mblen t)) in *.
  assert (N : forall (k : nat) (a b : list byte) (i : nat),
             firstn k a = firstn k b -> (i < k)%nat ->
             nth i a x00 = nth i b x00).
  { intros k a b i E Hi.
    pose proof (nth_firstn k a i x00) as A.
    pose proof (nth_firstn k b i x00) as B.
    destruct (Nat.ltb_spec i k); [|lia]. rewrite <- A, <- B, E.
    reflexivity. }
  apply (swap_matrix_ext ins_c del_c sub_c trans_c s t s' t' m0 n0
           (S (m0 + n0))); eauto; lia.
Qed.

Lemma three_row_reads_leading_bytes_witness :
  dameraulevenshtein_internal_noncompatible pg_utf_mblen junk
    [xc3; xa9] (bytes "e") 1 1 1 1
  = dameraulevenshtein_internal_noncompatible pg_utf_mblen junk
      [xc3; xa8] (bytes "e") 1 1 1 1.
Proof.
  apply (three_row_reads_leading_bytes pg_utf_mblen junk
           [xc3; xa9] [xc3; xa8] (bytes "e") (bytes "e") 1 1 1 1);
    vm_compute; reflexivity.
Defined.

(** X15: exchanging the two texts and, with them, the costs of insertion
    and deletion does not change the result of the three-row engine; with
    equal costs of insertion and deletion the result is symmetric, as the
    header comment notes. *)
Theorem three_row_exchange pg_mblen uninit (s t : text)
    (ins_c del_c sub_c trans_c : Z) :
  dameraulevenshtein_internal_noncompatible pg_mblen uninit s t
    ins_c del_c sub_c trans_c
  = dameraulevenshtein_internal_noncompatible pg_mblen uninit t s
      del_c ins_c sub_c trans_c.
Proof.
  rewrite !noncompatible_corner.
  apply (swap_matrix_transpose ins_c del_c sub_c trans_c s t
           (S (Z.to_nat (char_count pg_mblen s)
               + Z.to_nat (char_count pg_mblen t)))).
  lia.
Qed.

(** X16: the test of the multi-byte inner loop (last bytes equal, then
    lengths equal, then [rest_of_char_same] unless the length is 1) holds
    exactly when the two characters are the same sequence of bytes. *)
Theorem multibyte_test_is_character_equality (x y : list byte)
    (x_char_len y_char_len : Z) :
  1 <= x_char_len <= Z.of_nat (List.length x) ->
  1 <= y_char_len <= Z.of_nat (List.length y) ->
  (mb_char_same x x_char_len y y_char_len = true
   <-> firstn (Z.to_nat x_char_len) x = firstn (Z.to_nat y_char_len) y).
Proof.
  intros Hx Hy. rewrite mb_char_same_spec by assumption.
  split.
  - apply char_eqb_eq.
  - intros E. now apply char_eqb_eq.
Qed.

Lemma multibyte_test_is_character_equality_witness :
  mb_char_same [xc3; xa9; x21] 2 [xc3; xa8] 2 = true
  <-> firstn (Z.to_nat 2) [xc3; xa9; x21] = firstn (Z.to_nat 2) [xc3; xa8].
Proof.
  apply (multibyte_test_is_character_equality
           [xc3; xa9; x21] [xc3; xa8] 2 2); cbn; lia.
Defined.


